(** * Particle-in-a-box simulation: the parallel time stepper of [sim.py]

    [sim.py] advances [N] point particles in a square box.  Every time step
    hands one task per particle to a process pool; a task
    ([compute_particle]) performs a Runge-Kutta step on [dt], asks the box
    whether the straight segment to the new state left the box, and if so
    redoes the step in two parts around a reflection at the wall.  The main
    block owns two state buffers that are exchanged after every step and
    writes every committed ensemble to the output file.

    The embedding below follows the program text.  numpy arrays are objects
    of a store, so that views ([particles[idx, :]]), in-place updates
    ([particles_s_new[idx, :] = s_new]) and the exchange of the two buffer
    names are what they are in Python.  The modules [const], [eqnmotion],
    [rk4], [box] and [output] are imported by [sim.py] from files of their
    own; they enter as the fields of a record [Env], and their description
    in the specification is given separately ([rk4_step_spec],
    [left_box_spec], [reflect_spec]). *)

From Stdlib Require Import ZArith QArith Qround Lqa.
From Stdlib Require Import PrimFloat FloatOps.
From stdpp Require Import base option list gmap.

Set Default Proof Using "Type".

(** ** Numbers *)

(** Exceptions the program can meet. [IndexError]: a row index outside an
    array.  [ValueError]: [int(np.ceil(x))] on a value that is no number
    (Python raises [OverflowError] for an infinite one; both are merged
    here). *)
Inductive exn : Set := IndexError | ValueError.

(** The arithmetic of the array entries.  The program computes on numpy
    [float64]; the structural results hold for whatever the operations are,
    so they are stated over this interface, with the binary64 numbers of the
    kernel and the exact rationals as its two instances. *)
Class Scalar (F : Type) : Type := {
  fzero : F;                       (* the literal 0.0 *)
  fone : F;                        (* the literal 1.0 *)
  fadd : F → F → F;
  fsub : F → F → F;
  fmul : F → F → F;
  fdiv : F → F → F;
  fneg : F → F;
  fltb : F → F → bool;
  fleb : F → F → bool;
  of_int : Z → F;                  (* an int operand promoted to float *)
  ceil_int : F → exn + Z;          (* int(np.ceil(x)) *)
}.

Declare Scope scalar_scope.
Delimit Scope scalar_scope with F.
Infix "+" := fadd : scalar_scope.
Infix "-" := fsub : scalar_scope.
Infix "*" := fmul : scalar_scope.
Infix "/" := fdiv : scalar_scope.
Notation "- a" := (fneg a) : scalar_scope.
Infix "<?" := fltb : scalar_scope.
Infix "<=?" := fleb : scalar_scope.

(** ** Particle states and ensembles *)

(** One row [x, y, vx, vy] of the state array. *)
Record State (F : Type) : Type := mkState { px : F; py : F; vx : F; vy : F }.
Arguments mkState {F} _ _ _ _.
Arguments px {F} _.
Arguments py {F} _.
Arguments vx {F} _.
Arguments vy {F} _.

(** The [(N, 4)] array: one row per particle, the row index is the particle. *)
Abbreviation Ensemble F := (list (State F)).

(** The four walls of the box, the values [left_box] reports in [where]. *)
Inductive Wall : Set := WLeft | WRight | WBottom | WTop.

(** [box.box(xmin, xmax, ymin, ymax)]. *)
Record box (F : Type) : Type := mkBox { xmin : F; xmax : F; ymin : F; ymax : F }.
Arguments mkBox {F} _ _ _ _.
Arguments xmin {F} _.
Arguments xmax {F} _.
Arguments ymin {F} _.
Arguments ymax {F} _.

Section Vectors.
Context {F : Type} `{Scalar F}.

(** numpy's elementwise [a + b] on rows. *)
Definition vadd (a b : State F) : State F :=
  mkState (px a + px b)%F (py a + py b)%F (vx a + vx b)%F (vy a + vy b)%F.

(** numpy's [c * a] of a number and a row. *)
Definition vscale (c : F) (a : State F) : State F :=
  mkState (c * px a)%F (c * py a)%F (c * vx a)%F (c * vy a)%F.

(** A row of [np.zeros]. *)
Definition zero_row : State F := mkState fzero fzero fzero fzero.
End Vectors.

(** ** The imported modules *)

(** What [sim.py] imports: the constants of [const], the right-hand side
    [eqnmotion.eqnmotion], the stepper [rk4.rk4_step], and the two functions
    of [box.box] it calls.  The functions read their array arguments and
    return a new value; [reflect] alone may instead overwrite the row it is
    given and return it, which [reflect_in_place] records. *)
Record Env (F : Type) : Type := mkEnv {
  N : nat;
  box_size : F;
  dt : F;
  t_max : F;
  v_max : F;
  eqnmotion : State F → Ensemble F → nat → State F;
  rk4_step : (State F → Ensemble F → nat → State F) →
             State F → Ensemble F → nat → F → State F;
  left_box : box F → State F → State F → option Wall * F;
  reflect : State F → Wall → State F;
  reflect_in_place : bool;
}.
Arguments mkEnv {F} _ _ _ _ _ _ _ _ _ _.
Arguments N {F} _.
Arguments box_size {F} _.
Arguments dt {F} _.
Arguments t_max {F} _.
Arguments v_max {F} _.
Arguments eqnmotion {F} _ _ _ _.
Arguments rk4_step {F} _ _ _ _ _ _.
Arguments left_box {F} _ _ _ _.
Arguments reflect {F} _ _ _.
Arguments reflect_in_place {F} _.

(** ** The store and the monad of the program *)

Definition loc := nat.

(** An array object: a two-dimensional state buffer or a single row. *)
Inductive obj (F : Type) : Type :=
  | Arr2 (rows : Ensemble F)
  | Arr1 (s : State F).
Arguments Arr2 {F} _.
Arguments Arr1 {F} _.

(** A one-dimensional array value: an array of its own, or the view
    [a[i, :]] of row [i] of a buffer, which shares the buffer's memory. *)
Inductive aref : Set :=
  | Whole (l : loc)
  | RowOf (l : loc) (i : nat).

(** The store of array objects and the lines written to the output file
    so far, one [(t, ensemble)] per call of [output]. *)
Record world (F : Type) : Type := mkWorld {
  mem : gmap loc (obj F);
  file : list (F * Ensemble F);
}.
Arguments mkWorld {F} _ _.
Arguments mem {F} _.
Arguments file {F} _.

(** The outcome of a computation: a value, an exception, or the step budget
    of the loop exhausted. *)
Inductive result (A : Type) : Type :=
  | Ok (a : A)
  | Raise (e : exn)
  | Timeout.
Arguments Ok {A} _.
Arguments Raise {A} _.
Arguments Timeout {A}.

Definition M (F A : Type) : Type := world F → result (A * world F).

Global Instance M_ret {F} : MRet (M F) := λ A a w, Ok (a, w).
Global Instance M_bind {F} : MBind (M F) := λ A B f m w,
  match m w with
  | Ok (a, w') => f a w'
  | Raise e => Raise e
  | Timeout => Timeout
  end.

Definition raise {F A} (e : exn) : M F A := λ _, Raise e.
Definition timeout {F A} : M F A := λ _, Timeout.

Section Store.
Context {F : Type}.

(** A new array object at an unused address. *)
Definition alloc (o : obj F) : M F loc := λ w,
  let l := fresh (dom (mem w)) in
  Ok (l, mkWorld (<[l := o]> (mem w)) (file w)).

(** The rows of a buffer. *)
Definition read_rows (p : loc) : M F (Ensemble F) := λ w,
  match mem w !! p with
  | Some (Arr2 rows) => Ok (rows, w)
  | _ => Raise IndexError
  end.

(** [a[idx, :]]: a view, no copy; [IndexError] outside the buffer. *)
Definition getitem (p : loc) (idx : nat) : M F aref :=
  rows ← read_rows p;
  if decide (idx < length rows) then mret (RowOf p idx) else raise IndexError.

(** The current entries of a one-dimensional array value. *)
Definition load (r : aref) : M F (State F) := λ w,
  match r with
  | Whole l =>
      match mem w !! l with
      | Some (Arr1 s) => Ok (s, w)
      | _ => Raise IndexError
      end
  | RowOf l i =>
      match mem w !! l with
      | Some (Arr2 rows) =>
          match rows !! i with
          | Some s => Ok (s, w)
          | None => Raise IndexError
          end
      | _ => Raise IndexError
      end
  end.

(** [a[idx, :] = s]: the row is overwritten in place. *)
Definition setitem (p : loc) (idx : nat) (s : State F) : M F unit := λ w,
  match mem w !! p with
  | Some (Arr2 rows) =>
      if decide (idx < length rows)
      then Ok ((), mkWorld (<[p := Arr2 (<[idx := s]> rows)]> (mem w)) (file w))
      else Raise IndexError
  | _ => Raise IndexError
  end.

(** Overwriting a one-dimensional array value in place. *)
Definition store (r : aref) (s : State F) : M F unit :=
  match r with
  | Whole l => λ w,
      match mem w !! l with
      | Some (Arr1 _) => Ok ((), mkWorld (<[l := Arr1 s]> (mem w)) (file w))
      | _ => Raise IndexError
      end
  | RowOf l i => setitem l i s
  end.

(** [a + b] on one-dimensional arrays: a new array. *)
Definition add_arrays `{Scalar F} (a b : aref) : M F aref :=
  va ← load a;
  vb ← load b;
  l ← alloc (Arr1 (vadd va vb));
  mret (Whole l).

(** [output(f, t, particles)]: one more record in the file, holding the
    entries the buffer has at the time of the call. *)
Definition write_record (t : F) (rows : Ensemble F) : M F unit := λ w,
  Ok ((), mkWorld (mem w) (file w ++ [(t, rows)])).

Definition output (t : F) (p : loc) : M F unit :=
  rows ← read_rows p;
  write_record t rows.

(** [open(outfile, 'w')]: the file starts empty. *)
Definition open_w : M F unit := λ w, Ok ((), mkWorld (mem w) []).
End Store.

(** ** The program *)

Section Program.
Context {F : Type} `{Scalar F} (E : Env F).

(** [simbox = box.box(0.0, box_size, 0.0, box_size)] *)
Definition simbox : box F := mkBox fzero (box_size E) fzero (box_size E).

(** The call [rk4_step(eqnmotion.eqnmotion, s, particles, idx, h)]: the
    stepper reads the row and the ensemble and returns the increment as a
    new array. *)
Definition call_rk4_step (s : aref) (particles : loc) (idx : nat) (h : F)
    : M F aref :=
  vs ← load s;
  rows ← read_rows particles;
  l ← alloc (Arr1 (rk4_step E (eqnmotion E) vs rows idx h));
  mret (Whole l).

(** The call [simbox.left_box(s_old, s_new)]. *)
Definition call_left_box (s_old s_new : aref) : M F (option Wall * F) :=
  vo ← load s_old;
  vn ← load s_new;
  mret (left_box E simbox vo vn).

(** The call [box.box.reflect(s, where)]: the reflected row, written over
    [s] itself or returned as a new array. *)
Definition call_reflect (s : aref) (wall : Wall) : M F aref :=
  v ← load s;
  if reflect_in_place E
  then store s (reflect E v wall);; mret s
  else l ← alloc (Arr1 (reflect E v wall)); mret (Whole l).

(** [compute_particle(idx, particles)], lines 37-56. *)
Definition compute_particle (idx : nat) (particles : loc) : M F (nat * aref) :=
  s_old ← getitem particles idx;
  (* First RK4 step on dt *)
  k ← call_rk4_step s_old particles idx (dt E);
  s_new ← add_arrays s_old k;
  (* Check for leaving box and handle reflection *)
  '(where_, lambda_inters) ← call_left_box s_old s_new;
  match where_ with
  | Some wall =>
      (* Partial step to intersection *)
      k ← call_rk4_step s_old particles idx (lambda_inters * dt E)%F;
      s_inters ← add_arrays s_old k;
      (* Reflect at wall *)
      s_inters ← call_reflect s_inters wall;
      (* Remaining step after reflection *)
      k ← call_rk4_step s_inters particles idx ((fone - lambda_inters) * dt E)%F;
      s_new ← add_arrays s_inters k;
      mret (idx, s_new)
  | None => mret (idx, s_new)
  end.

(** A [for] loop over a list. *)
Fixpoint for_each {A : Type} (body : A → M F unit) (l : list A) : M F unit :=
  match l with
  | [] => mret ()
  | a :: l' => body a;; for_each body l'
  end.

(** [np.zeros((n, 4))] and [np.zeros_like(a)]. *)
Definition np_zeros (n : nat) : M F loc := alloc (Arr2 (replicate n zero_row)).

Definition np_zeros_like (p : loc) : M F loc :=
  rows ← read_rows p;
  alloc (Arr2 (replicate (length rows) zero_row)).

(** The module-level initialisation, lines 25-35.  [sample i] is the row
    [[x, y, vx, vy]] that the four calls of [random.uniform] give for
    particle [i]. *)
Definition module_init (sample : nat → State F) : M F (loc * loc) :=
  particles_s_old ← np_zeros (N E);
  for_each (λ i, setitem particles_s_old i (sample i)) (seq 0 (N E));;
  t_particles_new ← np_zeros_like particles_s_old;
  let particles_s_new := t_particles_new in
  mret (particles_s_old, particles_s_new).

(** [pool.starmap(f, args)]: one call per argument tuple, the results in
    the order of the arguments.  The calls are run one after the other on
    the store of the main process; the pool runs them on copies in worker
    processes, which can only remove interference between them. *)
Fixpoint starmap {A B : Type} (f : A → M F B) (args : list A) : M F (list B) :=
  match args with
  | [] => mret []
  | a :: args' => b ← f a; bs ← starmap f args'; mret (b :: bs)
  end.

(** The variables of the time-stepping loop. *)
Record vars : Type := mkVars {
  particles_s_old : loc;
  particles_s_new : loc;
  t : F;
  current_step : Z;
}.

(** Lines 78-83: the tasks of one step and the unpacking of their results
    into the new state buffer.  [order] is the list of particle indices the
    tasks are made for; the program uses [range(N)]. *)
Definition parallel_update (order : list nat) (v : vars) : M F unit :=
  let args := map (λ i, (i, particles_s_old v)) order in
  results ← starmap (λ '(i, p), compute_particle i p) args;
  for_each (λ '(idx, s_new),
            row ← load s_new; setitem (particles_s_new v) idx row) results.

(** One pass through the body of the [while] loop, lines 77-95. *)
Definition loop_body (v : vars) : M F vars :=
  parallel_update (seq 0 (N E)) v;;
  (* Swap buffers for next iteration *)
  let '(particles_s_old', particles_s_new') :=
    (particles_s_new v, particles_s_old v) in
  (* Advance time and step count *)
  let current_step' := (current_step v + 1)%Z in
  let t' := (of_int current_step' * dt E)%F in
  output t' particles_s_old';;
  mret (mkVars particles_s_old' particles_s_new' t' current_step').

(** [while current_step < total_steps: ...], with a bound on the number of
    passes. *)
Fixpoint time_loop (fuel : nat) (total_steps : Z) (v : vars) : M F vars :=
  if decide (current_step v < total_steps)%Z then
    match fuel with
    | 0 => timeout
    | S fuel' => v' ← loop_body v; time_loop fuel' total_steps v'
    end
  else mret v.

(** [int(np.ceil(x))]. *)
Definition int_ceil (x : F) : M F Z :=
  match ceil_int x with
  | inl e => raise e
  | inr n => mret n
  end.

(** The main block, lines 58-107, on the two buffers of the module. *)
Definition main_block (fuel : nat) (particles_s_old particles_s_new : loc)
    : M F vars :=
  total_steps ← int_ceil (t_max E / dt E)%F;
  open_w;;
  let t := fzero in
  let current_step := 0%Z in
  output t particles_s_old;;
  time_loop fuel total_steps
    (mkVars particles_s_old particles_s_new t current_step).

(** The whole program. *)
Definition sim (sample : nat → State F) (fuel : nat) : M F vars :=
  '(particles_s_old, particles_s_new) ← module_init sample;
  main_block fuel particles_s_old particles_s_new.

End Program.

(** ** The imported modules as the specification describes them *)

Section Collaborators.
Context {F : Type} `{Scalar F}.

(** Modelled from the spec: the module [rk4] is not among the sources.
    Section 4.1: the classical four-stage increment for step size [h],
    [k1 = f(state)], [k2 = f(state + h/2 k1)], [k3 = f(state + h/2 k2)],
    [k4 = f(state + h k3)], result [h/6 (k1 + 2 k2 + 2 k3 + k4)]; the
    context is the same ensemble in all four stages. *)
Definition rk4_step_spec (f : State F → Ensemble F → nat → State F)
    (state : State F) (context : Ensemble F) (index : nat) (h : F) : State F :=
  let two := of_int 2 in
  let k1 := f state context index in
  let k2 := f (vadd state (vscale (h / two)%F k1)) context index in
  let k3 := f (vadd state (vscale (h / two)%F k2)) context index in
  let k4 := f (vadd state (vscale h k3)) context index in
  vscale (h / of_int 6)%F
    (vadd (vadd (vadd k1 (vscale two k2)) (vscale two k3)) k4).

(** Modelled from the spec: the module [box] is not among the sources.
    Section 4.3, [detectCrossing]: the crossing fraction of the straight
    segment from the old to the new position against each wall. *)
Definition crossing_fraction (b : box F) (wall : Wall) (s_old s_new : State F)
    : F :=
  match wall with
  | WLeft => ((xmin b - px s_old) / (px s_new - px s_old))%F
  | WRight => ((xmax b - px s_old) / (px s_new - px s_old))%F
  | WBottom => ((ymin b - py s_old) / (py s_new - py s_old))%F
  | WTop => ((ymax b - py s_old) / (py s_new - py s_old))%F
  end.

(** A fraction that counts as a crossing: positive and in (0,1]. *)
Definition in_range (lam : F) : bool := (fzero <? lam)%F && (lam <=? fone)%F.

(** The fixed order in which the walls are tried; on equal fractions the
    earlier wall is kept. *)
Definition wall_priority : list Wall := [WLeft; WRight; WBottom; WTop].

Definition closer (best : option (Wall * F)) (wall : Wall) (lam : F)
    : option (Wall * F) :=
  if in_range lam then
    match best with
    | None => Some (wall, lam)
    | Some (_, lam0) => if (lam <? lam0)%F then Some (wall, lam) else best
    end
  else best.

Definition first_crossing (b : box F) (s_old s_new : State F)
    : option (Wall * F) :=
  foldl (λ best wall, closer best wall (crossing_fraction b wall s_old s_new))
        None wall_priority.

(** Modelled from the spec: the module [box] is not among the sources.
    Section 4.3, [detectCrossing]: the wall with the smallest fraction in
    (0,1], none when no wall is crossed in that range.  The caller reads the
    fraction only when a wall is reported; [fzero] stands in otherwise. *)
Definition left_box_spec (b : box F) (s_old s_new : State F) : option Wall * F :=
  match first_crossing b s_old s_new with
  | Some (wall, lam) => (Some wall, lam)
  | None => (None, fzero)
  end.

(** Modelled from the spec: the module [box] is not among the sources.
    Section 4.3, [reflect]: the velocity component normal to the wall is
    negated, the other three entries are kept. *)
Definition reflect_spec (s : State F) (wall : Wall) : State F :=
  match wall with
  | WLeft | WRight => mkState (px s) (py s) (- vx s)%F (vy s)
  | WBottom | WTop => mkState (px s) (py s) (vx s) (- vy s)%F
  end.

(** Modelled from the spec: the module [eqnmotion] is not among the sources
    and its interaction law is left open (section 4.2).  This is the law
    without interaction: the velocity passes through, the acceleration is
    zero. *)
Definition free_motion (s : State F) (_ : Ensemble F) (_ : nat) : State F :=
  mkState (vx s) (vy s) fzero fzero.

(** Modelled from the spec: the module [eqnmotion] is not among the sources.
    Section 4.2 with one of the laws it names, the spring: the velocity
    passes through, the acceleration is the sum, over all particles of the
    snapshot other than [index], of [k] times the offset to that particle. *)
Definition spring_motion (k : F) (s : State F) (ctx : Ensemble F) (index : nat)
    : State F :=
  let pull (coord : State F → F) :=
    foldl (λ acc jp, if decide (jp.1 = index) then acc
                     else (acc + k * (coord jp.2 - coord s))%F)
          fzero (zip (seq 0 (length ctx)) ctx) in
  mkState (vx s) (vy s) (pull px) (pull py).

(** The environment of sections 4.1-4.3 for given constants and a given
    right-hand side. *)
Definition spec_env (n : nat) (size step tmax vmax : F)
    (f : State F → Ensemble F → nat → State F) (in_place : bool) : Env F :=
  mkEnv n size step tmax vmax f rk4_step_spec left_box_spec reflect_spec in_place.

(** The square [0, box_size]^2, walls included, as a test on numbers. *)
Definition inside (size : F) (s : State F) : bool :=
  (fzero <=? px s)%F && (px s <=? size)%F &&
  (fzero <=? py s)%F && (py s <=? size)%F.

End Collaborators.

(** ** The per-particle update as a function of the old ensemble *)

Section Update.
Context {F : Type} `{Scalar F} (E : Env F).

(** Section 4.4 of the specification, [updateOne]: the tentative full step;
    committed as it is when no crossing is found; otherwise the step to the
    intersection, the reflection, and the remaining step from the
    reflected state, all with the old ensemble as context. *)
Definition updateOne (index : nat) (oldEnsemble : Ensemble F) (s_old : State F)
    : State F :=
  let rk4 s h := rk4_step E (eqnmotion E) s oldEnsemble index h in
  let candidate := vadd s_old (rk4 s_old (dt E)) in
  match left_box E (simbox E) s_old candidate with
  | (None, _) => candidate
  | (Some wall, lam) =>
      let at_wall := vadd s_old (rk4 s_old (lam * dt E)%F) in
      let reflected := reflect E at_wall wall in
      vadd reflected (rk4 reflected ((fone - lam) * dt E)%F)
  end.

(** The ensemble after one step: every row updated from the old ensemble. *)
Definition step_ensemble (old : Ensemble F) : Ensemble F :=
  imap (λ i s_old, updateOne i old s_old) old.

(** The ensemble after [k] steps. *)
Fixpoint steps (k : nat) (e : Ensemble F) : Ensemble F :=
  match k with
  | 0 => e
  | S k' => steps k' (step_ensemble e)
  end.

(** The records the main block writes for step [1] to step [n], starting
    from the ensemble [e] of step [0]. *)
Definition records (n : nat) (e : Ensemble F) : list (F * Ensemble F) :=
  map (λ k, ((of_int (Z.of_nat k) * dt E)%F, steps k e)) (seq 1 n).

End Update.

(** ** The two kinds of numbers *)

(** Exact rational arithmetic. *)
Global Instance Q_scalar : Scalar Q := {|
  fzero := 0%Q;
  fone := 1%Q;
  fadd := Qplus;
  fsub := Qminus;
  fmul := Qmult;
  fdiv := Qdiv;
  fneg := Qopp;
  fltb := λ a b, negb (Qle_bool b a);
  fleb := Qle_bool;
  of_int := inject_Z;
  ceil_int := λ q, inr (Qceiling q);
|}.

(** The integer value of a binary64 number that has one, rounded up. *)
Definition float_ceil (x : float) : exn + Z :=
  match Prim2SF x with
  | SpecFloat.S754_zero _ => inr 0%Z
  | SpecFloat.S754_infinity _ => inl ValueError
  | SpecFloat.S754_nan => inl ValueError
  | SpecFloat.S754_finite sign m e =>
      let n := if sign then Z.neg m else Z.pos m in
      inr (if decide (0 ≤ e)%Z then (n * 2 ^ e)%Z
           else (- ((- n) `div` 2 ^ (- e)))%Z)
  end.

(** An [int] of any size as a binary64 number, as in [current_step * dt]:
    the nearest binary64 number, ties to even.  (Above the largest binary64
    number Python raises [OverflowError]; the result here is [infinity].
    That takes more than [2^1023] passes of the loop.) *)
Definition float_of_int (n : Z) : float :=
  SF2Prim (SpecFloat.binary_normalize FloatOps.prec FloatOps.emax n 0 false).

(** IEEE 754 binary64, the [float64] of numpy. *)
Global Instance float_scalar : Scalar float := {|
  fzero := PrimFloat.zero;
  fone := PrimFloat.one;
  fadd := PrimFloat.add;
  fsub := PrimFloat.sub;
  fmul := PrimFloat.mul;
  fdiv := PrimFloat.div;
  fneg := PrimFloat.opp;
  fltb := PrimFloat.ltb;
  fleb := PrimFloat.leb;
  of_int := float_of_int;
  ceil_int := float_ceil;
|}.

(** A binary64 number that is neither infinite nor a NaN. *)
Definition finite (x : float) : bool := PrimFloat.ltb (PrimFloat.abs x) PrimFloat.infinity.

Definition finite_state (s : State float) : bool :=
  finite (px s) && finite (py s) && finite (vx s) && finite (vy s).

(** ** Notions used to state and prove the properties *)

Section StoreNotions.
Context {F : Type}.
Implicit Types (w : world F) (o : obj F) (l p q : loc) (r : aref)
  (rows buf : Ensemble F).

(** The address the next allocation uses. *)
Definition top w : loc := fresh (dom (mem w)).

(** The world after the allocation of [o]. *)
Definition push o w : world F := mkWorld (<[top w := o]> (mem w)) (file w).

(** [grows w w']: [w'] is [w] after some allocations; nothing that was in
    [w] has changed and nothing was written to the file. *)
Inductive grows : world F → world F → Prop :=
  | grows_refl w : grows w w
  | grows_push w w' o : grows w w' → grows w (push o w').

(** [holds w r s]: the array value [r] has the entries [s] in [w]. *)
Definition holds w r (s : State F) : Prop :=
  match r with
  | Whole l => mem w !! l = Some (Arr1 s)
  | RowOf p i => ∃ rows, mem w !! p = Some (Arr2 rows) ∧ rows !! i = Some s
  end.

(** A call that returns a new array holding [s]. *)
Definition yields (m : M F aref) w (s : State F) (w' : world F) (l : loc) : Prop :=
  m w = Ok (Whole l, w') ∧ grows w w' ∧
  mem w' !! l = Some (Arr1 s) ∧ mem w !! l = None.

(** The rows of a buffer after the assignments [buf[i, :] = s] of a list of
    results, in their order. *)
Definition commit_rows buf (vals : list (nat * State F)) : Ensemble F :=
  foldl (λ b v, <[v.1 := v.2]> b) buf vals.

(** A buffer with new rows, everything else as before. *)
Definition set_buf (q : loc) buf w : world F :=
  mkWorld (<[q := Arr2 buf]> (mem w)) (file w).

(** The ensemble the name [particles_s_old] stands for. *)
Definition committed (v : @vars F) (w : world F) : option (Ensemble F) :=
  match mem w !! particles_s_old v with
  | Some (Arr2 rows) => Some rows
  | _ => None
  end.

(** What a run of the main block shows: the step count reached, the
    ensemble committed last, and the records in the file. *)
Definition observe (r : result (@vars F * world F))
    : result (Z * option (Ensemble F) * list (F * Ensemble F)) :=
  match r with
  | Ok (v, w) => Ok (current_step v, committed v w, file w)
  | Raise e => Raise e
  | Timeout => Timeout
  end.

End StoreNotions.

Section RunNotions.
Context {F : Type} `{Scalar F} (E : Env F).
Implicit Types (w : world F) (rows buf : Ensemble F) (v : @vars F).

(** The new row of particle [i], when the old ensemble has that particle. *)
Definition new_row rows (i : nat) : option (State F) :=
  updateOne E i rows <$> rows !! i.

(** The double buffer: the old buffer holds [rows], the new buffer is
    another array of the same shape, and both have [N] rows. *)
Definition buffers v w rows : Prop :=
  mem w !! particles_s_old v = Some (Arr2 rows) ∧
  length rows = N E ∧
  (∃ buf, mem w !! particles_s_new v = Some (Arr2 buf) ∧ length buf = N E) ∧
  particles_s_old v ≠ particles_s_new v.

(** The records of steps [c+1] to [c+n]. *)
Definition records_from (c : Z) (n : nat) rows : list (F * Ensemble F) :=
  map (λ k, ((of_int (c + Z.of_nat k) * dt E)%F, steps E k rows)) (seq 1 n).

(** The initial ensemble: the sampled rows of particles [0] to [N-1]. *)
Definition initial_ensemble (sample : nat → State F) : Ensemble F :=
  sample <$> seq 0 (N E).

(** The records the whole run writes: the initial ensemble at time [0.0],
    then one record per step. *)
Definition trace (total : Z) (e : Ensemble F) : list (F * Ensemble F) :=
  (fzero, e) :: records E (Z.to_nat total) e.

End RunNotions.

(** An environment with another crossing test. *)
Definition with_left_box {F : Type} (E : Env F)
    (lb : box F → State F → State F → option Wall * F) : Env F :=
  mkEnv (N E) (box_size E) (dt E) (t_max E) (v_max E) (eqnmotion E)
        (rk4_step E) lb (reflect E) (reflect_in_place E).

(** A position in the open square, off the walls. *)
Definition strictly_inside (size : Q) (s : State Q) : Prop :=
  (0 < px s)%Q ∧ (px s < size)%Q ∧ (0 < py s)%Q ∧ (py s < size)%Q.

(** The box of the program, [simbox], on exact numbers. *)
Definition square (size : Q) : box Q := mkBox 0%Q size 0%Q size.

(** Where a wall is, on the axis it is normal to. *)
Definition wall_coord (size : Q) (wall : Wall) : Q :=
  match wall with
  | WLeft | WBottom => 0%Q
  | WRight | WTop => size
  end.

(** The coordinate of a state on the axis a wall is normal to. *)
Definition along (wall : Wall) (s : State Q) : Q :=
  match wall with
  | WLeft | WRight => px s
  | WBottom | WTop => py s
  end.

(** The end point of a segment is on the far side of a wall, or on it. *)
Definition past (size : Q) (wall : Wall) (c : State Q) : Prop :=
  match wall with
  | WLeft => (px c <= 0)%Q
  | WRight => (size <= px c)%Q
  | WBottom => (py c <= 0)%Q
  | WTop => (size <= py c)%Q
  end.

Definition strictly_past (size : Q) (wall : Wall) (c : State Q) : Prop :=
  match wall with
  | WLeft => (px c < 0)%Q
  | WRight => (size < px c)%Q
  | WBottom => (py c < 0)%Q
  | WTop => (size < py c)%Q
  end.

(** The end points one bounce brings back: within one box width beyond at
    most one wall.  The set is the cross made of the box and the four
    squares of the same size that share a wall with it. *)
Definition reach (size cx cy : Q) : Prop :=
  ((- size <= cx)%Q ∧ (cx <= 2 * size)%Q ∧ (0 <= cy)%Q ∧ (cy <= size)%Q) ∨
  ((0 <= cx)%Q ∧ (cx <= size)%Q ∧ (- size <= cy)%Q ∧ (cy <= 2 * size)%Q).

(** A coordinate mirrored at the wall it is beyond, if any. *)
Definition mirror (size c : Q) : Q :=
  if Qle_bool c 0 then (- c)%Q
  else if Qle_bool size c then (2 * size - c)%Q
  else c.

(** The fraction of a wall, given the fractions of the four walls. *)
Definition fraction_of (lL lR lB lT : Q) (wall : Wall) : Q :=
  match wall with WLeft => lL | WRight => lR | WBottom => lB | WTop => lT end.

(** The rational number a finite binary64 number is. *)
Definition exact_value (x : float) : Q :=
  match Prim2SF x with
  | SpecFloat.S754_finite sign m e =>
      (inject_Z (if sign then Z.neg m else Z.pos m) * 2 ^ e)%Q
  | _ => 0%Q
  end.

Definition exact_state (s : State float) : State Q :=
  mkState (exact_value (px s)) (exact_value (py s))
          (exact_value (vx s)) (exact_value (vy s)).

(** ** Examples to run the definitions on *)

(** Two particles without interaction in a box of size 8, time step 6,
    two steps: the first particle runs into the right wall during the
    step, the second is at rest. *)
Definition demo_env : Env Q :=
  spec_env 2 8%Q 6%Q 12%Q 1%Q free_motion true.

Definition demo_rows : Ensemble Q :=
  [mkState 5%Q 1%Q 1%Q 0%Q; mkState 1%Q 1%Q 0%Q 0%Q].

Definition demo_sample (i : nat) : State Q :=
  match i with
  | 0 => mkState 5%Q 1%Q 1%Q 0%Q
  | _ => mkState 1%Q 1%Q 0%Q 0%Q
  end.

(** A store with the ensemble at address 0 and a second buffer, with
    leftover entries, at address 1. *)
Definition demo_world : world Q :=
  mkWorld (<[1%nat := Arr2 [mkState 7%Q 7%Q 7%Q 7%Q; zero_row]]>
             (<[0%nat := Arr2 demo_rows]> ∅)) [].

Definition demo_vars : @vars Q := mkVars 0%nat 1%nat 0%Q 0%Z.

(** The same store with other leftovers in the second buffer. *)
Definition demo_world' : world Q :=
  mkWorld (<[1%nat := Arr2 [zero_row; mkState 3%Q 3%Q 3%Q 3%Q]]>
             (<[0%nat := Arr2 demo_rows]> ∅)) [].

(** The fraction at which the first particle of [demo_rows] meets the right
    wall: one half. *)
Definition demo_lam : Q :=
  Eval vm_compute in
    (left_box_spec (simbox demo_env) (mkState 5%Q 1%Q 1%Q 0%Q)
       (vadd (mkState 5%Q 1%Q 1%Q 0%Q)
          (rk4_step_spec free_motion (mkState 5%Q 1%Q 1%Q 0%Q) demo_rows 0 6%Q))).2.

(** One particle without interaction in a box of size 8, one step of
    length 6. *)
Definition corner_env : Env Q :=
  spec_env 1 8%Q 6%Q 6%Q 1%Q free_motion true.

(** The particle starts at (5,3) with velocity (1,1): the full step ends at
    (11,9), beyond the right wall (at fraction 1/2) and beyond the top wall
    (at fraction 5/6). *)
Definition corner_start : State Q := mkState 5%Q 3%Q 1%Q 1%Q.

(** A particle on the left wall, at (0,1), with velocity (-1,0). *)
Definition wall_start : State Q := mkState 0%Q 1%Q (-1)%Q 0%Q.

(** The box and the step of [corner_env] on binary64 numbers. *)
Definition corner_env64 : Env float :=
  spec_env 1 8%float 6%float 6%float 1%float free_motion true.

Definition corner_start64 : State float :=
  mkState 5%float 3%float 1%float 1%float.

(** A particle at the smallest positive binary64 distance from the left
    wall, with velocity (-2^1000, 0). *)
Definition tiny_start : State float :=
  mkState 0x1p-1074%float 1%float (-0x1p+1000)%float 0%float.

(** One particle without interaction, two steps of length 16. *)
Definition fast_env : Env float :=
  spec_env 1 8%float 16%float 32%float 1%float free_motion true.

(** The particle starts at (1,1) with the finite velocity (2^1023, 0). *)
Definition fast_start : State float :=
  mkState 1%float 1%float 0x1p+1023%float 0%float.

Definition fast_end : State float :=
  mkState infinity 1%float 0x1p+1023%float 0%float.

(** Two particles joined by a spring of stiffness 1, in a box of size 8,
    one step of length 1: the first starts at (7,1) with velocity (3,0), the
    second is at rest at (4,1). *)
Definition spring_env : Env Q :=
  spec_env 2 8%Q 1%Q 1%Q 1%Q (spring_motion 1%Q) true.

Definition spring_sample (i : nat) : State Q :=
  match i with
  | 0 => mkState 7%Q 1%Q 3%Q 0%Q
  | _ => mkState 4%Q 1%Q 0%Q 0%Q
  end.

(** One particle without interaction on binary64 numbers, box of size 8,
    one step of length 1.  The particle starts at the binary64 numbers next
    to (4.1, 4) with velocity next to (11.9, 0); the sum of the two
    numbers next to 4.1 and 11.9 is 16. *)
Definition round_env : Env float :=
  spec_env 1 8%float 1%float 1%float 1%float free_motion true.

Definition round_start : State float :=
  mkState 0x1.0666666666666p+2%float 4%float 0x1.7cccccccccccdp+3%float 0%float.

Definition round_end : State float :=
  mkState (-0x1p-49)%float 4%float (-0x1.7cccccccccccdp+3)%float 0%float.

(** Two particles at rest, at (1,1) and (7,1), joined by a spring of
    stiffness 2^1023 on binary64 numbers; two steps of length 1. *)
Definition stiff_env : Env float :=
  spec_env 2 8%float 1%float 2%float 1%float (spring_motion 0x1p+1023%float) true.

Definition stiff_sample (i : nat) : State float :=
  match i with
  | 0 => mkState 1%float 1%float 0%float 0%float
  | _ => mkState 7%float 1%float 0%float 0%float
  end.

(** An environment with another value of [t_max]. *)
Definition with_t_max {F : Type} (E : Env F) (tmax : F) : Env F :=
  mkEnv (N E) (box_size E) (dt E) tmax (v_max E) (eqnmotion E)
        (rk4_step E) (left_box E) (reflect E) (reflect_in_place E).

(** An environment whose [reflect] follows the other convention for its
    result: written over the argument, or returned as a new array. *)
Definition with_in_place {F : Type} (E : Env F) (in_place : bool) : Env F :=
  mkEnv (N E) (box_size E) (dt E) (t_max E) (v_max E) (eqnmotion E)
        (rk4_step E) (left_box E) (reflect E) in_place.

(** The buffer a name stands for after [n] exchanges of the two names. *)
Definition after_swaps (n : nat) (a b : loc) : loc :=
  if Nat.even n then a else b.

(** The constants of [demo_env] with [t_max = 0]. *)
Definition idle_env : Env Q :=
  spec_env 2 8%Q 6%Q 0%Q 1%Q free_motion true.

(** ** Reasoning about the store *)

Section StoreFacts.
Context {F : Type}.
Implicit Types (w : world F) (o : obj F) (l p : loc) (r : aref).

Lemma bind_Ok {A B : Type} (m : M F A) (f : A → M F B) w a w' :
  m w = Ok (a, w') → (m ≫= f) w = f a w'.
Proof. intros Hm. unfold mbind, M_bind. by rewrite Hm. Qed.

Lemma bind_Raise {A B : Type} (m : M F A) (f : A → M F B) w e :
  m w = Raise e → (m ≫= f) w = Raise e.
Proof. intros Hm. unfold mbind, M_bind. by rewrite Hm. Qed.

Lemma bind_Timeout {A B : Type} (m : M F A) (f : A → M F B) w :
  m w = Timeout → (m ≫= f) w = Timeout.
Proof. intros Hm. unfold mbind, M_bind. by rewrite Hm. Qed.

Lemma alloc_push o w : alloc o w = Ok (top w, push o w).
Proof. reflexivity. Qed.

Lemma top_fresh w : mem w !! top w = None.
Proof. unfold top. apply (not_elem_of_dom (D := gset loc)). apply is_fresh. Qed.

Lemma push_top o w : mem (push o w) !! top w = Some o.
Proof. apply lookup_insert_eq. Qed.

Lemma push_old o w l x : mem w !! l = Some x → mem (push o w) !! l = Some x.
Proof.
  intros Hl. unfold push; simpl. rewrite lookup_insert_ne; [done|].
  intros <-. rewrite top_fresh in Hl. discriminate.
Qed.

Lemma push_push_same o o' w :
  mkWorld (<[top w := o']> (mem (push o w))) (file (push o w)) = push o' w.
Proof. unfold push; simpl. by rewrite insert_insert_eq. Qed.

Lemma grows_trans w1 w2 w3 : grows w1 w2 → grows w2 w3 → grows w1 w3.
Proof. intros H12 H23. induction H23; [done|]. constructor. auto. Qed.

Lemma grows_one o w : grows w (push o w).
Proof. constructor. constructor. Qed.

Lemma grows_lookup w w' l x :
  grows w w' → mem w !! l = Some x → mem w' !! l = Some x.
Proof. induction 1; [done|]. intros Hl. apply push_old. auto. Qed.

Lemma grows_file w w' : grows w w' → file w' = file w.
Proof. induction 1; [done|]. done. Qed.

Lemma grows_None w w' l : grows w w' → mem w' !! l = None → mem w !! l = None.
Proof.
  intros Hg Hl. destruct (mem w !! l) as [x|] eqn:Hx; [|done].
  rewrite (grows_lookup _ _ _ _ Hg Hx) in Hl. discriminate.
Qed.

(** What the reading operations return is stable under allocation. *)
Lemma read_rows_eq w p rows :
  mem w !! p = Some (Arr2 rows) → read_rows p w = Ok (rows, w).
Proof. intros Hp. unfold read_rows. by rewrite Hp. Qed.

Lemma load_row w p i rows s :
  mem w !! p = Some (Arr2 rows) → rows !! i = Some s →
  load (RowOf p i) w = Ok (s, w).
Proof. intros Hp Hi. simpl. by rewrite Hp, Hi. Qed.

Lemma load_whole w l s :
  mem w !! l = Some (Arr1 s) → load (Whole l) w = Ok (s, w).
Proof. intros Hl. simpl. by rewrite Hl. Qed.

Lemma load_holds w r s : holds w r s → load r w = Ok (s, w).
Proof.
  destruct r as [l|p i]; simpl.
  - intros ->. done.
  - intros (rows & -> & ->). done.
Qed.

Lemma holds_grows w w' r s : grows w w' → holds w r s → holds w' r s.
Proof.
  intros Hg. destruct r as [l|p i]; simpl.
  - by apply grows_lookup.
  - intros (rows & Hp & Hi). exists rows. split; [|done].
    by apply (grows_lookup w).
Qed.

Lemma holds_fun w r s s' : holds w r s → holds w r s' → s = s'.
Proof.
  destruct r as [l|p i]; simpl.
  - congruence.
  - intros (rows & Hp & Hi) (rows' & Hp' & Hi'). congruence.
Qed.

Lemma add_arrays_yields `{Scalar F} w a b va vb :
  holds w a va → holds w b vb →
  yields (add_arrays a b) w (vadd va vb) (push (Arr1 (vadd va vb)) w) (top w).
Proof.
  intros Ha Hb. unfold yields, add_arrays.
  rewrite (bind_Ok _ _ _ _ _ (load_holds _ _ _ Ha)).
  rewrite (bind_Ok _ _ _ _ _ (load_holds _ _ _ Hb)).
  rewrite (bind_Ok _ _ _ _ _ (alloc_push _ _)).
  split_and!; [done|apply grows_one|apply push_top|apply top_fresh].
Qed.

End StoreFacts.

(** ** The task [compute_particle] *)

Section TaskFacts.
Context {F : Type} `{Scalar F} (E : Env F).
Implicit Types (w : world F) (l p : loc) (r : aref) (rows : Ensemble F).

Lemma yields_bind {B : Type} (m : M F aref) (f : aref → M F B) w s w' l :
  yields m w s w' l → (m ≫= f) w = f (Whole l) w'.
Proof. intros (Hm & _). by apply bind_Ok. Qed.

Lemma yields_holds (m : M F aref) w s w' l :
  yields m w s w' l → holds w' (Whole l) s.
Proof. by intros (_ & _ & Hl & _). Qed.

Lemma yields_grows (m : M F aref) w s w' l : yields m w s w' l → grows w w'.
Proof. by intros (_ & Hg & _). Qed.

Lemma getitem_Ok w p idx rows s :
  mem w !! p = Some (Arr2 rows) → rows !! idx = Some s →
  getitem p idx w = Ok (RowOf p idx, w).
Proof.
  intros Hp Hi. unfold getitem.
  rewrite (bind_Ok _ _ _ _ _ (read_rows_eq _ _ _ Hp)).
  apply lookup_lt_Some in Hi. by rewrite decide_True.
Qed.

Lemma getitem_out_of_range w p idx rows :
  mem w !! p = Some (Arr2 rows) → rows !! idx = None →
  getitem p idx w = Raise IndexError.
Proof.
  intros Hp Hi. unfold getitem.
  rewrite (bind_Ok _ _ _ _ _ (read_rows_eq _ _ _ Hp)).
  apply lookup_ge_None in Hi. rewrite decide_False; [done|lia].
Qed.

Lemma call_rk4_step_yields w s p idx h vs rows :
  holds w s vs → mem w !! p = Some (Arr2 rows) →
  let k := rk4_step E (eqnmotion E) vs rows idx h in
  yields (call_rk4_step E s p idx h) w k (push (Arr1 k) w) (top w).
Proof.
  intros Hs Hp k. unfold yields, call_rk4_step.
  rewrite (bind_Ok _ _ _ _ _ (load_holds _ _ _ Hs)).
  rewrite (bind_Ok _ _ _ _ _ (read_rows_eq _ _ _ Hp)).
  rewrite (bind_Ok _ _ _ _ _ (alloc_push _ _)).
  split_and!; [done|apply grows_one|apply push_top|apply top_fresh].
Qed.

Lemma call_left_box_Ok w s_old s_new vo vn :
  holds w s_old vo → holds w s_new vn →
  call_left_box E s_old s_new w = Ok (left_box E (simbox E) vo vn, w).
Proof.
  intros Ho Hn. unfold call_left_box.
  rewrite (bind_Ok _ _ _ _ _ (load_holds _ _ _ Ho)).
  by rewrite (bind_Ok _ _ _ _ _ (load_holds _ _ _ Hn)).
Qed.

(** The sum followed by the reflection: whether [reflect] writes into the
    sum or returns a new array, the outcome is an array that did not exist
    before and holds the reflected row, and nothing older is touched. *)
Lemma add_reflect_Ok w a b va vb wall :
  holds w a va → holds w b vb →
  ∃ w' l,
    (∀ (B : Type) (k : aref → M F B),
       (s ← add_arrays a b; s' ← call_reflect E s wall; k s') w
       = k (Whole l) w') ∧
    grows w w' ∧
    mem w' !! l = Some (Arr1 (reflect E (vadd va vb) wall)) ∧
    mem w !! l = None.
Proof.
  intros Ha Hb.
  pose proof (add_arrays_yields w a b va vb Ha Hb) as Hadd.
  set (v := vadd va vb) in *. set (v' := reflect E v wall).
  pose proof (load_holds _ _ _ (yields_holds _ _ _ _ _ Hadd)) as Hload.
  destruct (reflect_in_place E) eqn:Hplace.
  - exists (push (Arr1 v') w), (top w).
    assert (store (Whole (top w)) v' (push (Arr1 v) w)
            = Ok ((), push (Arr1 v') w)) as Hst.
    { simpl. rewrite lookup_insert_eq. f_equal. f_equal. apply push_push_same. }
    split_and!; [|apply grows_one|apply push_top|apply top_fresh].
    intros B k. rewrite (yields_bind _ _ _ _ _ _ Hadd).
    unfold call_reflect. rewrite Hplace.
    erewrite bind_Ok; [|erewrite bind_Ok; [|exact Hload]; erewrite bind_Ok;
                         [|exact Hst]; reflexivity].
    done.
  - exists (push (Arr1 v') (push (Arr1 v) w)), (top (push (Arr1 v) w)).
    split_and!; [| |apply push_top|].
    + intros B k. rewrite (yields_bind _ _ _ _ _ _ Hadd).
      unfold call_reflect. rewrite Hplace.
      erewrite bind_Ok; [|erewrite bind_Ok; [|exact Hload]; erewrite bind_Ok;
                           [|apply alloc_push]; reflexivity].
      done.
    + apply grows_push, grows_one.
    + eapply grows_None; [apply grows_one|apply top_fresh].
Qed.

(** The task on a buffer that has the row: it returns the index it was
    given and an array that did not exist before and holds [updateOne] of
    the old row; the world has only grown. *)
Lemma compute_particle_Ok w p idx rows s_old :
  mem w !! p = Some (Arr2 rows) → rows !! idx = Some s_old →
  ∃ w' l, compute_particle E idx p w = Ok ((idx, Whole l), w') ∧
          grows w w' ∧
          mem w' !! l = Some (Arr1 (updateOne E idx rows s_old)) ∧
          mem w !! l = None.
Proof.
  intros Hp Hi.
  assert (holds w (RowOf p idx) s_old) as Hold by (exists rows; done).
  pose proof (call_rk4_step_yields w _ p idx (dt E) _ _ Hold Hp) as Hk1.
  simpl in Hk1. set (k1 := rk4_step E (eqnmotion E) s_old rows idx (dt E)) in *.
  set (w1 := push (Arr1 k1) w) in *.
  assert (grows w w1) as Hg1 by apply (yields_grows _ _ _ _ _ Hk1).
  pose proof (add_arrays_yields w1 _ _ _ _
                (holds_grows _ _ _ _ Hg1 Hold) (yields_holds _ _ _ _ _ Hk1)) as Hc.
  set (cand := vadd s_old k1) in *. set (w2 := push (Arr1 cand) w1) in *.
  assert (grows w w2) as Hg2
    by (eapply grows_trans; [exact Hg1|apply (yields_grows _ _ _ _ _ Hc)]).
  pose proof (call_left_box_Ok w2 _ _ _ _
                (holds_grows _ _ _ _ Hg2 Hold) (yields_holds _ _ _ _ _ Hc)) as Hlb.
  unfold compute_particle.
  rewrite (bind_Ok _ _ _ _ _ (getitem_Ok _ _ _ _ _ Hp Hi)).
  rewrite (yields_bind _ _ _ _ _ _ Hk1).
  rewrite (yields_bind _ _ _ _ _ _ Hc).
  rewrite (bind_Ok _ _ _ _ _ Hlb).
  unfold updateOne. fold k1. fold cand.
  destruct (left_box E (simbox E) s_old cand) as [[wall|] lam].
  - (* a wall was crossed *)
    pose proof (call_rk4_step_yields w2 _ p idx (lam * dt E)%F _ _
                  (holds_grows _ _ _ _ Hg2 Hold)
                  (grows_lookup _ _ _ _ Hg2 Hp)) as Hk2.
    simpl in Hk2.
    set (k2 := rk4_step E (eqnmotion E) s_old rows idx (lam * dt E)%F) in *.
    set (w3 := push (Arr1 k2) w2) in *.
    assert (grows w w3) as Hg3
      by (eapply grows_trans; [exact Hg2|apply (yields_grows _ _ _ _ _ Hk2)]).
    rewrite (yields_bind _ _ _ _ _ _ Hk2).
    destruct (add_reflect_Ok w3 _ _ _ _ wall
                (holds_grows _ _ _ _ Hg3 Hold) (yields_holds _ _ _ _ _ Hk2))
      as (w4 & l4 & Hr & Hg34 & Hl4 & _).
    set (refl := reflect E (vadd s_old k2) wall) in *.
    assert (grows w w4) as Hg4 by (eapply grows_trans; [exact Hg3|exact Hg34]).
    rewrite Hr.
    pose proof (call_rk4_step_yields w4 (Whole l4) p idx
                  ((fone - lam) * dt E)%F refl rows
                  Hl4 (grows_lookup _ _ _ _ Hg4 Hp)) as Hk3.
    simpl in Hk3.
    set (k3 := rk4_step E (eqnmotion E) refl rows idx ((fone - lam) * dt E)%F) in *.
    set (w5 := push (Arr1 k3) w4) in *.
    assert (grows w4 w5) as Hg45 by apply (yields_grows _ _ _ _ _ Hk3).
    rewrite (yields_bind _ _ _ _ _ _ Hk3).
    pose proof (add_arrays_yields w5 (Whole l4) _ refl k3
                  (holds_grows _ _ (Whole l4) _ Hg45 Hl4)
                  (yields_holds _ _ _ _ _ Hk3)) as Hfin.
    rewrite (yields_bind _ _ _ _ _ _ Hfin).
    exists (push (Arr1 (vadd refl k3)) w5), (top w5).
    split_and!; [done| |apply push_top|].
    + eapply grows_trans; [exact Hg4|]. apply grows_push. exact Hg45.
    + eapply grows_None; [|apply top_fresh].
      eapply grows_trans; [exact Hg4|exact Hg45].
  - (* no wall was crossed *)
    exists w2, (top w1).
    split_and!; [done|exact Hg2|apply push_top|].
    eapply grows_None; [exact Hg1|apply top_fresh].
Qed.

(** Outside the buffer the task raises. *)
Lemma compute_particle_out_of_range w p idx rows :
  mem w !! p = Some (Arr2 rows) → rows !! idx = None →
  compute_particle E idx p w = Raise IndexError.
Proof.
  intros Hp Hi. unfold compute_particle.
  by rewrite (bind_Raise _ _ _ _ (getitem_out_of_range _ _ _ _ Hp Hi)).
Qed.

End TaskFacts.

(** ** One step of the ensemble *)

Section StepFacts.
Context {F : Type} `{Scalar F} (E : Env F).
Implicit Types (w : world F) (l p q : loc) (rows buf : Ensemble F).

Lemma step_ensemble_lookup rows i : step_ensemble E rows !! i = new_row E rows i.
Proof. unfold step_ensemble, new_row. by rewrite list_lookup_imap. Qed.

Lemma step_ensemble_length rows : length (step_ensemble E rows) = length rows.
Proof. unfold step_ensemble. apply length_imap. Qed.

Lemma commit_rows_length vals buf : length (commit_rows buf vals) = length buf.
Proof.
  revert buf. induction vals as [|v vals IH]; intros buf; simpl; [done|].
  rewrite IH. apply length_insert.
Qed.

(** When every result carries the value that belongs to its index, the
    buffer ends with that value at every index that occurs, whatever the
    order and whatever was there. *)
Lemma commit_rows_lookup (g : nat → option (State F)) vals buf j :
  Forall (λ v, g v.1 = Some v.2 ∧ v.1 < length buf) vals →
  commit_rows buf vals !! j = if decide (j ∈ vals.*1) then g j else buf !! j.
Proof.
  revert buf. induction vals as [|[i s] vals IH]; intros buf Hall; simpl.
  - done.
  - apply Forall_cons in Hall as [[Hg Hlt] Hall]. simpl in Hg, Hlt.
    rewrite IH.
    2:{ eapply Forall_impl; [exact Hall|]. intros v [? ?].
        by rewrite length_insert. }
    destruct (decide (j ∈ vals.*1)) as [Hin|Hnin].
    + rewrite decide_True; [done|]. by apply list_elem_of_further.
    + destruct (decide (j = i)) as [->|Hne].
      * rewrite decide_True; [|apply list_elem_of_here].
        rewrite list_lookup_insert_eq; [|done]. by rewrite Hg.
      * rewrite decide_False.
        2:{ intros Hin. apply elem_of_cons in Hin as [?|?]; done. }
        by rewrite list_lookup_insert_ne.
Qed.

Lemma commit_rows_all rows buf vals :
  length buf = length rows →
  vals.*1 ≡ₚ seq 0 (length rows) →
  Forall (λ v, new_row E rows v.1 = Some v.2) vals →
  commit_rows buf vals = step_ensemble E rows.
Proof.
  intros Hlen Hperm Hall. apply list_eq. intros j.
  rewrite (commit_rows_lookup (new_row E rows)).
  2:{ apply Forall_forall. intros v Hv. split.
      - by apply (proj1 (Forall_forall _ _) Hall).
      - assert (v.1 ∈ seq 0 (length rows)) as Hin.
        { rewrite <- Hperm. apply list_elem_of_fmap. by exists v. }
        apply elem_of_seq in Hin. lia. }
  rewrite step_ensemble_lookup.
  destruct (decide (j ∈ vals.*1)) as [Hin|Hnin]; [done|].
  assert (¬ j < length rows) as Hge.
  { intros Hlt. apply Hnin. rewrite Hperm. apply elem_of_seq. lia. }
  unfold new_row. rewrite !lookup_ge_None_2; [done|lia|lia].
Qed.

(** The tasks of one step: each returns its own index and an array that
    holds the new row of that index. *)
Lemma starmap_tasks order : ∀ w p rows,
  mem w !! p = Some (Arr2 rows) →
  Forall (λ i, i < length rows) order →
  ∃ results w',
    starmap (λ '(i, p), compute_particle E i p) (map (λ i, (i, p)) order) w
      = Ok (results, w') ∧
    grows w w' ∧
    Forall2 (λ i res, ∃ l s, res = (i, Whole l) ∧ new_row E rows i = Some s ∧
                             mem w' !! l = Some (Arr1 s) ∧ mem w !! l = None)
            order results.
Proof.
  induction order as [|i order IH]; intros w p rows Hp Hall.
  - exists [], w. split_and!; [done|constructor|constructor].
  - apply Forall_cons in Hall as [Hi Hall].
    destruct (lookup_lt_is_Some_2 rows i Hi) as [s_old Hs].
    destruct (compute_particle_Ok E w p i rows s_old Hp Hs)
      as (w1 & l & Hrun & Hg1 & Hl & Hfresh).
    destruct (IH w1 p rows (grows_lookup _ _ _ _ Hg1 Hp) Hall)
      as (results & w' & Hrest & Hg & Hres).
    exists ((i, Whole l) :: results), w'. split_and!.
    + simpl. rewrite (bind_Ok _ _ _ _ _ Hrun).
      by rewrite (bind_Ok _ _ _ _ _ Hrest).
    + by eapply grows_trans.
    + constructor.
      * exists l, (updateOne E i rows s_old). split_and!; [done| |by eapply grows_lookup|done].
        unfold new_row. by rewrite Hs.
      * eapply Forall2_impl; [exact Hres|]. intros j res (l' & s & ? & ? & ? & ?).
        exists l', s. split_and!; [done..|]. by eapply grows_None.
Qed.

Lemma set_buf_same q buf w :
  mem w !! q = Some (Arr2 buf) → set_buf q buf w = w.
Proof. intros Hq. destruct w as [m f]. unfold set_buf; simpl in *. by rewrite insert_id. Qed.

Lemma set_buf_twice q buf buf' w :
  set_buf q buf' (set_buf q buf w) = set_buf q buf' w.
Proof. unfold set_buf; simpl. by rewrite insert_insert_eq. Qed.

(** The unpacking loop, lines 82-83. *)
Lemma unpack_results q results : ∀ w buf (vals : list (nat * State F)),
  mem w !! q = Some (Arr2 buf) →
  Forall2 (λ res v, ∃ l, res = (v.1, Whole l) ∧ mem w !! l = Some (Arr1 v.2) ∧
                         v.1 < length buf) results vals →
  for_each (λ '(idx, s_new), row ← load s_new; setitem q idx row) results w
    = Ok ((), set_buf q (commit_rows buf vals) w).
Proof.
  induction results as [|res results IH]; intros w buf vals Hq Hall.
  - apply Forall2_nil_inv_l in Hall as ->. simpl.
    by rewrite set_buf_same.
  - apply Forall2_cons_inv_l in Hall as ([i s] & vals' & (l & -> & Hl & Hlt) & Hall & ->).
    simpl in *.
    assert (l ≠ q) as Hne by (intros ->; congruence).
    assert ((row ← load (Whole l); setitem q i row) w
            = Ok ((), set_buf q (<[i := s]> buf) w)) as Hset.
    { rewrite (bind_Ok _ _ _ _ _ (load_whole _ _ _ Hl)).
      unfold setitem. rewrite Hq. by rewrite decide_True. }
    rewrite (bind_Ok _ _ _ _ _ Hset).
    rewrite (IH _ (<[i := s]> buf) vals').
    + by rewrite set_buf_twice.
    + apply lookup_insert_eq.
    + eapply Forall2_impl; [exact Hall|]. intros res v (l' & -> & Hl' & Hlt').
      exists l'. split_and!; [done| |by rewrite length_insert].
      simpl. rewrite lookup_insert_ne; [done|]. intros <-. congruence.
Qed.

(** Lines 78-83 for any order of the particle indices: the new buffer ends
    up holding the step of the old ensemble; the old buffer, every other
    array that existed, and the file are as before. *)
Lemma parallel_update_Ok order v w rows buf :
  mem w !! particles_s_old v = Some (Arr2 rows) →
  mem w !! particles_s_new v = Some (Arr2 buf) →
  particles_s_old v ≠ particles_s_new v →
  length buf = length rows →
  order ≡ₚ seq 0 (length rows) →
  ∃ w', parallel_update E order v w = Ok ((), w') ∧
        mem w' !! particles_s_new v = Some (Arr2 (step_ensemble E rows)) ∧
        (∀ l x, l ≠ particles_s_new v → mem w !! l = Some x → mem w' !! l = Some x) ∧
        file w' = file w.
Proof.
  intros Hold Hnew Hne Hlen Hperm.
  assert (Forall (λ i, i < length rows) order) as Hrange.
  { apply Forall_forall. intros i Hi. rewrite Hperm in Hi.
    apply elem_of_seq in Hi. lia. }
  destruct (starmap_tasks order w _ rows Hold Hrange)
    as (results & w1 & Hmap & Hg & Hres).
  (* the values carried by the results *)
  assert (∃ vals : list (nat * State F),
            vals.*1 = order ∧
            Forall (λ v, new_row E rows v.1 = Some v.2) vals ∧
            Forall2 (λ res v, ∃ l, res = (v.1, Whole l) ∧
                       mem w1 !! l = Some (Arr1 v.2) ∧ v.1 < length buf)
                    results vals) as (vals & Hfst & Hvals & Hcarry).
  { clear Hmap Hperm. induction Hres as [|i res order results (l & s & -> & Hs & Hl & _) _ IH].
    - exists []. split_and!; constructor.
    - apply Forall_cons in Hrange as [Hi Hrange].
      destruct (IH Hrange) as (vals & Hfst & Hvals & Hcarry).
      exists ((i, s) :: vals). split_and!.
      + rewrite fmap_cons. simpl. by f_equal.
      + by constructor.
      + constructor; [|done]. exists l. split_and!; [done..|]. simpl. lia. }
  pose proof (unpack_results (particles_s_new v) results w1 buf vals
                (grows_lookup _ _ _ _ Hg Hnew) Hcarry) as Hunpack.
  exists (set_buf (particles_s_new v) (commit_rows buf vals) w1). split_and!.
  - unfold parallel_update. by rewrite (bind_Ok _ _ _ _ _ Hmap).
  - simpl. rewrite lookup_insert_eq. f_equal. f_equal.
    apply commit_rows_all; [done|by rewrite Hfst|done].
  - intros l x Hl Hx. simpl. rewrite lookup_insert_ne; [|done].
    by eapply grows_lookup.
  - simpl. by apply grows_file.
Qed.

End StepFacts.

(** ** The time-stepping loop and the main block *)

Section DriverFacts.
Context {F : Type} `{Scalar F} (E : Env F).
Implicit Types (w : world F) (l p q : loc) (rows buf : Ensemble F) (v : @vars F).

Lemma output_Ok t0 p w rows :
  mem w !! p = Some (Arr2 rows) →
  output t0 p w = Ok ((), mkWorld (mem w) (file w ++ [(t0, rows)])).
Proof.
  intros Hp. unfold output.
  by rewrite (bind_Ok _ _ _ _ _ (read_rows_eq _ _ _ Hp)).
Qed.

(** One pass of the loop: the buffers E change roles, the step counter and
    the time advance, and one record is written. *)
Lemma loop_body_Ok v w rows :
  buffers E v w rows →
  let c := (current_step v + 1)%Z in
  let v' := mkVars (particles_s_new v) (particles_s_old v) (of_int c * dt E)%F c in
  ∃ w', loop_body E v w = Ok (v', w') ∧
        buffers E v' w' (step_ensemble E rows) ∧
        file w' = file w ++ [((of_int c * dt E)%F, step_ensemble E rows)].
Proof.
  intros (Hold & Hlen & (buf & Hnew & Hlenb) & Hne) c v'.
  destruct (parallel_update_Ok E (seq 0 (N E)) v w rows buf Hold Hnew Hne)
    as (w1 & Hpar & Hnew1 & Hkeep & Hfile); [lia|by rewrite Hlen|].
  eexists. split_and!.
  - unfold loop_body. rewrite (bind_Ok _ _ _ _ _ Hpar).
    rewrite (bind_Ok _ _ _ _ _ (output_Ok _ _ _ _ Hnew1)). reflexivity.
  - unfold buffers; simpl. split_and!; [done|by rewrite step_ensemble_length| |done].
    exists rows. split; [|done]. by apply Hkeep.
  - simpl. by rewrite Hfile.
Qed.

Lemma records_from_0 n rows : records_from E 0 n rows = records E n rows.
Proof. reflexivity. Qed.

Lemma records_from_S c n rows :
  records_from E c (S n) rows
  = ((of_int (c + 1) * dt E)%F, step_ensemble E rows)
      :: records_from E (c + 1) n (step_ensemble E rows).
Proof.
  unfold records_from. simpl. f_equal.
  rewrite <- (fmap_S_seq 1). rewrite <- list_fmap_compose.
  apply list_fmap_ext. intros i k _. simpl. do 3 f_equal. lia.
Qed.

Lemma records_from_length c n rows : length (records_from E c n rows) = n.
Proof. unfold records_from. by rewrite length_map, length_seq. Qed.

(** The loop with enough passes allowed: it makes exactly the remaining
    number of passes and writes one record per pass. *)
Lemma time_loop_Ok (n : nat) : ∀ fuel total v w rows,
  buffers E v w rows →
  n = Z.to_nat (total - current_step v) →
  n ≤ fuel →
  ∃ v' w', time_loop E fuel total v w = Ok (v', w') ∧
           buffers E v' w' (steps E n rows) ∧
           current_step v' = (current_step v + Z.of_nat n)%Z ∧
           file w' = file w ++ records_from E (current_step v) n rows.
Proof.
  induction n as [|n IH]; intros fuel total v w rows Hbuf Hn Hfuel.
  - exists v, w. split_and!; [|done|lia|by rewrite app_nil_r].
    destruct fuel; simpl; rewrite decide_False; (done || lia).
  - destruct fuel as [|fuel]; [lia|].
    destruct (loop_body_Ok v w rows Hbuf) as (w1 & Hbody & Hbuf1 & Hfile1).
    simpl in Hbody, Hbuf1, Hfile1.
    set (v1 := mkVars _ _ _ _) in *.
    destruct (IH fuel total v1 w1 _ Hbuf1) as (v' & w' & Hloop & Hbuf' & Hc & Hfile');
      [simpl; lia|lia|].
    exists v', w'. split_and!.
    + simpl. rewrite decide_True by lia.
      by rewrite (bind_Ok _ _ _ _ _ Hbody).
    + exact Hbuf'.
    + rewrite Hc. simpl. lia.
    + rewrite Hfile', Hfile1. simpl. rewrite records_from_S.
      by rewrite <- app_assoc.
Qed.

(** With too few passes allowed the loop runs out of them. *)
Lemma time_loop_Timeout (fuel : nat) : ∀ total v w rows,
  buffers E v w rows →
  fuel < Z.to_nat (total - current_step v) →
  time_loop E fuel total v w = Timeout.
Proof.
  induction fuel as [|fuel IH]; intros total v w rows Hbuf Hfuel.
  - simpl. rewrite decide_True by lia. done.
  - destruct (loop_body_Ok v w rows Hbuf) as (w1 & Hbody & Hbuf1 & _).
    simpl in Hbody, Hbuf1.
    simpl. rewrite decide_True by lia.
    rewrite (bind_Ok _ _ _ _ _ Hbody).
    apply (IH _ _ _ _ Hbuf1). simpl. lia.
Qed.

(** The initialisation loop, lines 26-31. *)
Lemma init_rows p (sample : nat → State F) n w :
  mem w !! p = Some (Arr2 (replicate n zero_row)) →
  for_each (λ i, setitem p i (sample i)) (seq 0 n) w
    = Ok ((), set_buf p (sample <$> seq 0 n) w).
Proof.
  intros Hp.
  assert (∀ (ixs : list nat) w buf,
            mem w !! p = Some (Arr2 buf) → Forall (λ i, i < length buf) ixs →
            for_each (λ i, setitem p i (sample i)) ixs w
            = Ok ((), set_buf p (commit_rows buf ((λ i, (i, sample i)) <$> ixs)) w))
    as Hloop.
  { clear. induction ixs as [|i ixs IH]; intros w buf Hp Hall; simpl.
    - by rewrite set_buf_same.
    - apply Forall_cons in Hall as [Hi Hall].
      assert (setitem p i (sample i) w
              = Ok ((), set_buf p (<[i := sample i]> buf) w)) as Hset.
      { unfold setitem. rewrite Hp. by rewrite decide_True. }
      rewrite (bind_Ok _ _ _ _ _ Hset).
      rewrite (IH _ (<[i := sample i]> buf)).
      + by rewrite set_buf_twice.
      + apply lookup_insert_eq.
      + eapply Forall_impl; [exact Hall|]. intros j ?. by rewrite length_insert. }
  rewrite (Hloop _ _ _ Hp).
  2:{ apply Forall_forall. intros i Hi. apply elem_of_seq in Hi.
      rewrite length_replicate. lia. }
  do 3 f_equal. apply list_eq. intros j.
  rewrite (commit_rows_lookup (λ i, Some (sample i))).
  2:{ apply Forall_forall. intros [i s] Hv.
      apply list_elem_of_fmap in Hv as (i' & [= -> ->] & Hi').
      apply elem_of_seq in Hi'. simpl. rewrite length_replicate. split; [done|lia]. }
  rewrite <- list_fmap_compose.
  replace (fst ∘ (λ i, (i, sample i))) with (@id nat) by done.
  rewrite list_fmap_id. rewrite list_lookup_fmap.
  destruct (decide (j ∈ seq 0 n)) as [Hin|Hnin].
  - apply elem_of_seq in Hin. rewrite lookup_seq_lt by lia. done.
  - assert (n ≤ j) as Hge.
    { destruct (decide (j < n)) as [Hlt|]; [|lia].
      exfalso. apply Hnin. apply elem_of_seq. lia. }
    rewrite lookup_seq_ge by lia. simpl.
    apply lookup_ge_None_2. by rewrite length_replicate.
Qed.

(** Lines 25-35 leave two distinct buffers: the sampled ensemble and an
    array of zeros of the same shape. *)
Lemma module_init_Ok sample w :
  ∃ po pn w', module_init E sample w = Ok ((po, pn), w') ∧
              buffers E (mkVars po pn fzero 0) w' (initial_ensemble E sample) ∧
              file w' = file w.
Proof.
  set (w1 := push (Arr2 (replicate (N E) zero_row)) w).
  set (w2 := set_buf (top w) (initial_ensemble E sample) w1).
  assert (mem w2 !! top w = Some (Arr2 (initial_ensemble E sample))) as Hpo
    by apply lookup_insert_eq.
  set (zeros := replicate (length (initial_ensemble E sample)) zero_row).
  exists (top w), (top w2), (push (Arr2 zeros) w2). split_and!.
  - unfold module_init, np_zeros, np_zeros_like.
    rewrite (bind_Ok _ _ _ _ _ (alloc_push _ _)).
    rewrite (bind_Ok _ _ _ _ _ (init_rows _ _ _ _ (push_top _ _))).
    erewrite bind_Ok; [reflexivity|].
    rewrite (bind_Ok _ _ _ _ _ (read_rows_eq _ _ _ Hpo)).
    apply alloc_push.
  - unfold buffers; simpl. split_and!.
    + apply (push_old _ w2). exact Hpo.
    + unfold initial_ensemble. by rewrite length_fmap, length_seq.
    + exists zeros. split; [apply (push_top _ w2)|].
      unfold zeros, initial_ensemble.
      by rewrite length_replicate, length_fmap, length_seq.
    + intros Heq. pose proof (top_fresh w2) as Hfresh.
      rewrite <- Heq in Hfresh. congruence.
  - done.
Qed.

(** The main block on a double buffer, with enough passes allowed. *)
Lemma main_block_Ok fuel po pn w rows total :
  buffers E (mkVars po pn fzero 0) w rows →
  ceil_int (t_max E / dt E)%F = inr total →
  Z.to_nat total ≤ fuel →
  ∃ v' w', main_block E fuel po pn w = Ok (v', w') ∧
           buffers E v' w' (steps E (Z.to_nat total) rows) ∧
           current_step v' = Z.of_nat (Z.to_nat total) ∧
           file w' = trace E total rows.
Proof.
  intros Hbuf Hceil Hfuel.
  pose proof Hbuf as (Hold & Hlen & (buf & Hnew & Hlenb) & Hne). simpl in *.
  set (w0 := mkWorld (mem w) []).
  set (w1 := mkWorld (mem w) [(fzero, rows)]).
  assert (buffers E (mkVars po pn fzero 0) w1 rows) as Hbuf1.
  { unfold buffers; simpl. split_and!; [done..|by exists buf|done]. }
  destruct (time_loop_Ok (Z.to_nat total) fuel total _ w1 rows Hbuf1)
    as (v' & w' & Hloop & Hbuf' & Hc & Hfile); [simpl; f_equal; lia|done|].
  exists v', w'. split_and!; [|done|by rewrite Hc|].
  - unfold main_block, int_ceil. rewrite Hceil.
    erewrite bind_Ok; [|reflexivity].
    erewrite bind_Ok; [|reflexivity].
    by rewrite (bind_Ok _ _ _ _ _ (output_Ok _ _ w0 _ Hold)).
  - rewrite Hfile. simpl. by rewrite records_from_0.
Qed.

Lemma main_block_Timeout fuel po pn w rows total :
  buffers E (mkVars po pn fzero 0) w rows →
  ceil_int (t_max E / dt E)%F = inr total →
  fuel < Z.to_nat total →
  main_block E fuel po pn w = Timeout.
Proof.
  intros Hbuf Hceil Hfuel.
  pose proof Hbuf as (Hold & Hlen & (buf & Hnew & Hlenb) & Hne). simpl in *.
  set (w0 := mkWorld (mem w) []).
  set (w1 := mkWorld (mem w) [(fzero, rows)]).
  assert (buffers E (mkVars po pn fzero 0) w1 rows) as Hbuf1.
  { unfold buffers; simpl. split_and!; [done..|by exists buf|done]. }
  unfold main_block, int_ceil. rewrite Hceil.
  erewrite bind_Ok; [|reflexivity].
  erewrite bind_Ok; [|reflexivity].
  rewrite (bind_Ok _ _ _ _ _ (output_Ok _ _ w0 _ Hold)).
  apply (time_loop_Timeout _ _ _ _ _ Hbuf1). simpl.
  replace (total - 0)%Z with total by lia. done.
Qed.

Lemma main_block_Raise fuel po pn w e :
  ceil_int (t_max E / dt E)%F = inl e →
  main_block E fuel po pn w = Raise e.
Proof. intros Hceil. unfold main_block, int_ceil. by rewrite Hceil. Qed.

End DriverFacts.

(** ** The example store is a double buffer *)

Lemma demo_buffers : buffers demo_env demo_vars demo_world demo_rows.
Proof.
  split_and!; [reflexivity|reflexivity| |discriminate].
  eexists. split; reflexivity.
Defined.

Lemma demo_buffers' : buffers demo_env demo_vars demo_world' demo_rows.
Proof.
  split_and!; [reflexivity|reflexivity| |discriminate].
  eexists. split; reflexivity.
Defined.

(** ** The properties of the task *)

Section TaskTheorems.
Context {F : Type} `{Scalar F}.

(** C10. [compute_particle] does not change its input: on a buffer that
    has row [idx] it returns with the index it was given, every array
    object that existed before the call, the buffer [particles] with its
    row [idx] among them, has the entries it had, and the output file is as
    it was; outside the buffer it raises and returns nothing. *)
Theorem compute_particle_frame (E : Env F) (w : world F) (idx : nat)
    (particles : loc) (rows : Ensemble F) :
  mem w !! particles = Some (Arr2 rows) →
  match compute_particle E idx particles w with
  | Ok ((i, _), w') =>
      i = idx ∧ idx < length rows ∧
      mem w' !! particles = Some (Arr2 rows) ∧
      (∀ l x, mem w !! l = Some x → mem w' !! l = Some x) ∧
      file w' = file w
  | Raise _ => length rows ≤ idx
  | Timeout => False
  end.
Proof.
  intros Hp. destruct (rows !! idx) as [s_old|] eqn:Hi.
  - destruct (compute_particle_Ok E w particles idx rows s_old Hp Hi)
      as (w' & l & -> & Hg & _ & _).
    split_and!; [done|by eapply lookup_lt_Some|by eapply grows_lookup| |by apply grows_file].
    intros l' x. by apply grows_lookup.
  - rewrite (compute_particle_out_of_range E w particles idx rows Hp Hi).
    by apply lookup_ge_None.
Qed.

(** C2. When the candidate of the full step crosses a wall with fraction
    [lam], the task returns the old row advanced by the increment for
    [lam * dt], reflected at that wall, and advanced by the increment for
    [(1 - lam) * dt] taken from the reflected row; all increments are
    computed with the old ensemble.  The crossing test enters only through
    its answer for the full step: any other test with that answer gives the
    same row, so the remaining part of the step is not tested. *)
Theorem compute_particle_bounce (E : Env F) (w : world F) (idx : nat)
    (particles : loc) (rows : Ensemble F) (s_old : State F)
    (wall : Wall) (lam : F) :
  mem w !! particles = Some (Arr2 rows) →
  rows !! idx = Some s_old →
  left_box E (simbox E) s_old
    (vadd s_old (rk4_step E (eqnmotion E) s_old rows idx (dt E)))
  = (Some wall, lam) →
  let s_inters :=
    reflect E (vadd s_old (rk4_step E (eqnmotion E) s_old rows idx
                             (lam * dt E)%F)) wall in
  let s_new :=
    vadd s_inters (rk4_step E (eqnmotion E) s_inters rows idx
                     ((fone - lam) * dt E)%F) in
  (∃ r w', compute_particle E idx particles w = Ok ((idx, r), w') ∧
           holds w' r s_new) ∧
  (∀ lb, lb (simbox E) s_old
           (vadd s_old (rk4_step E (eqnmotion E) s_old rows idx (dt E)))
         = (Some wall, lam) →
         ∃ r w', compute_particle (with_left_box E lb) idx particles w
                 = Ok ((idx, r), w') ∧
                 holds w' r s_new).
Proof.
  intros Hp Hi Hlb s_inters s_new. split.
  - destruct (compute_particle_Ok E w particles idx rows s_old Hp Hi)
      as (w' & l & Hrun & _ & Hl & _).
    exists (Whole l), w'. split; [done|]. simpl. rewrite Hl.
    unfold updateOne. by rewrite Hlb.
  - intros lb Hlb'.
    destruct (compute_particle_Ok (with_left_box E lb) w particles idx rows
                s_old Hp Hi) as (w' & l & Hrun & _ & Hl & _).
    exists (Whole l), w'. split; [done|]. simpl. rewrite Hl.
    unfold updateOne. simpl. unfold simbox in *. simpl. by rewrite Hlb'.
Qed.

(** C4. When the crossing test finds nothing for the candidate of the full
    step, the task returns the old row plus the single increment for [dt],
    and that row is what the step leaves at the particle's index in the
    committed ensemble; neither the reflection nor a partial step enters. *)
Theorem compute_particle_no_crossing (E : Env F) (v : vars) (w : world F)
    (idx : nat) (rows : Ensemble F) (s_old : State F) :
  buffers E v w rows →
  rows !! idx = Some s_old →
  let s_new := vadd s_old (rk4_step E (eqnmotion E) s_old rows idx (dt E)) in
  (left_box E (simbox E) s_old s_new).1 = None →
  (∃ r w', compute_particle E idx (particles_s_old v) w = Ok ((idx, r), w') ∧
           holds w' r s_new) ∧
  (∃ v' w' rows', loop_body E v w = Ok (v', w') ∧
                  mem w' !! particles_s_old v' = Some (Arr2 rows') ∧
                  rows' !! idx = Some s_new).
Proof.
  intros Hbuf Hi s_new Hnone.
  assert (updateOne E idx rows s_old = s_new) as Hupd.
  { unfold updateOne. fold s_new.
    destruct (left_box E (simbox E) s_old s_new) as [[wall|] lam]; [done|done]. }
  split.
  - destruct Hbuf as (Hp & _).
    destruct (compute_particle_Ok E w _ idx rows s_old Hp Hi)
      as (w' & l & Hrun & _ & Hl & _).
    exists (Whole l), w'. split; [done|]. simpl. by rewrite Hl, Hupd.
  - destruct (loop_body_Ok E v w rows Hbuf) as (w' & Hrun & (Hold' & _) & _).
    eexists _, w', _. split_and!; [exact Hrun|exact Hold'|].
    rewrite step_ensemble_lookup. unfold new_row. by rewrite Hi, <- Hupd.
Qed.

End TaskTheorems.

(** ** The properties of a step and of the run *)

Section RunTheorems.
Context {F : Type} `{Scalar F}.

(** C3. The tasks of one step may be run, and their results unpacked, in
    any order of the particle indices, from any store that holds the old
    ensemble: the new buffer ends with the same rows.  Row [i] is a function
    of [i] and the old ensemble alone, it goes to slot [i], and the old
    buffer is not written. *)
Theorem parallel_update_order_independent (E : Env F) (v1 v2 : vars)
    (w1 w2 : world F) (rows : Ensemble F) (order1 order2 : list nat) :
  buffers E v1 w1 rows →
  buffers E v2 w2 rows →
  order1 ≡ₚ seq 0 (N E) →
  order2 ≡ₚ seq 0 (N E) →
  ∃ w1' w2' rows',
    parallel_update E order1 v1 w1 = Ok ((), w1') ∧
    parallel_update E order2 v2 w2 = Ok ((), w2') ∧
    mem w1' !! particles_s_new v1 = Some (Arr2 rows') ∧
    mem w2' !! particles_s_new v2 = Some (Arr2 rows') ∧
    mem w1' !! particles_s_old v1 = Some (Arr2 rows) ∧
    mem w2' !! particles_s_old v2 = Some (Arr2 rows) ∧
    length rows' = N E ∧
    (∀ i s_old, rows !! i = Some s_old →
                rows' !! i = Some (updateOne E i rows s_old)).
Proof.
  intros (Ho1 & Hlen & (buf1 & Hn1 & Hl1) & Hne1)
         (Ho2 & _ & (buf2 & Hn2 & Hl2) & Hne2) Hp1 Hp2.
  destruct (parallel_update_Ok E order1 v1 w1 rows buf1 Ho1 Hn1 Hne1)
    as (w1' & Hrun1 & Hnew1 & Hkeep1 & _); [lia|by rewrite Hlen|].
  destruct (parallel_update_Ok E order2 v2 w2 rows buf2 Ho2 Hn2 Hne2)
    as (w2' & Hrun2 & Hnew2 & Hkeep2 & _); [lia|by rewrite Hlen|].
  exists w1', w2', (step_ensemble E rows).
  split_and!; [done|done|done|done|by apply Hkeep1|by apply Hkeep2| |].
  - by rewrite step_ensemble_length.
  - intros i s_old Hi. rewrite step_ensemble_lookup. unfold new_row.
    by rewrite Hi.
Qed.

(** C6. One pass of the loop on a double buffer of [N] rows: the pool
    returns exactly one result for each index [0..N-1], in that order; all
    of them are written to the new buffer; then the buffers change roles,
    and the committed ensemble has [N] rows again, row [i] being the update
    of row [i], and is the record written last.  A pass in which a task
    fails ends with that failure: nothing is exchanged or written. *)
Theorem loop_body_commits_all (E : Env F) (v : vars) (w : world F)
    (rows : Ensemble F) :
  buffers E v w rows →
  let tasks := starmap (λ '(i, p), compute_particle E i p)
                 (map (λ i, (i, particles_s_old v)) (seq 0 (N E))) in
  (∃ results w1 v' w' rows',
     tasks w = Ok (results, w1) ∧
     results.*1 = seq 0 (N E) ∧
     loop_body E v w = Ok (v', w') ∧
     particles_s_old v' = particles_s_new v ∧
     particles_s_new v' = particles_s_old v ∧
     buffers E v' w' rows' ∧
     length rows' = N E ∧
     (∀ i, i < N E → ∃ s_old, rows !! i = Some s_old ∧
                              rows' !! i = Some (updateOne E i rows s_old)) ∧
     last (file w') = Some (t v', rows')) ∧
  (∀ w0 e, tasks w0 = Raise e → loop_body E v w0 = Raise e).
Proof.
  intros Hbuf tasks. split.
  - pose proof Hbuf as (Hold & Hlen & _).
    assert (Forall (λ i, i < length rows) (seq 0 (N E))) as Hrange.
    { apply Forall_forall. intros i Hi. apply elem_of_seq in Hi. lia. }
    destruct (starmap_tasks E (seq 0 (N E)) w _ rows Hold Hrange)
      as (results & w1 & Hmap & _ & Hres).
    destruct (loop_body_Ok E v w rows Hbuf) as (w' & Hrun & Hbuf' & Hfile).
    eexists results, w1, _, w', (step_ensemble E rows).
    split_and!; [exact Hmap| |exact Hrun|done|done|exact Hbuf'| | |].
    + clear -Hres. induction Hres as [|i res order results (l & s & -> & _) _ IH];
        [done|]. rewrite fmap_cons. simpl. by f_equal.
    + by rewrite step_ensemble_length.
    + intros i Hi. destruct (lookup_lt_is_Some_2 rows i) as [s_old Hs]; [lia|].
      exists s_old. split; [done|]. rewrite step_ensemble_lookup.
      unfold new_row. by rewrite Hs.
    + rewrite Hfile. simpl. by rewrite last_snoc.
  - intros w0 e Hfail. unfold loop_body, parallel_update.
    apply bind_Raise. apply bind_Raise. exact Hfail.
Qed.

(** C5. When [int(np.ceil(t_max / dt))] is the number [total], the program
    makes exactly [total] passes through the loop (with fewer allowed it
    does not finish) and leaves [total + 1] records in the file, in this
    order: the initial ensemble at time [0.0], then for [k = 1..total] the
    ensemble after [k] steps at time [k * dt]. *)
Theorem sim_trace (E : Env F) (sample : nat → State F) (total : Z)
    (fuel : nat) (w : world F) :
  ceil_int (t_max E / dt E)%F = inr total →
  (0 ≤ total)%Z →
  (Z.to_nat total ≤ fuel →
   ∃ v' w',
     sim E sample fuel w = Ok (v', w') ∧
     current_step v' = total ∧
     file w' = (fzero, initial_ensemble E sample)
               :: map (λ k, ((of_int (Z.of_nat k) * dt E)%F,
                             steps E k (initial_ensemble E sample)))
                      (seq 1 (Z.to_nat total)) ∧
     length (file w') = S (Z.to_nat total)) ∧
  (fuel < Z.to_nat total → sim E sample fuel w = Timeout).
Proof.
  intros Hceil Hpos.
  destruct (module_init_Ok E sample w) as (po & pn & w0 & Hinit & Hbuf & _).
  split; intros Hfuel.
  - destruct (main_block_Ok E fuel po pn w0 _ total Hbuf Hceil Hfuel)
      as (v' & w' & Hrun & _ & Hc & Hfile).
    exists v', w'. split_and!.
    + unfold sim. by rewrite (bind_Ok _ _ _ _ _ Hinit).
    + rewrite Hc. lia.
    + exact Hfile.
    + rewrite Hfile. unfold trace, records. simpl.
      by rewrite length_map, length_seq.
  - unfold sim. rewrite (bind_Ok _ _ _ _ _ Hinit).
    by apply (main_block_Timeout E fuel po pn w0 _ total Hbuf Hceil).
Qed.

(** Two runs of the main block from stores that hold the same ensemble in
    the old buffer show the same. *)
Lemma main_block_observe (E : Env F) (fuel : nat) (po1 pn1 po2 pn2 : loc)
    (w1 w2 : world F) (rows : Ensemble F) :
  buffers E (mkVars po1 pn1 fzero 0) w1 rows →
  buffers E (mkVars po2 pn2 fzero 0) w2 rows →
  observe (main_block E fuel po1 pn1 w1) = observe (main_block E fuel po2 pn2 w2).
Proof.
  intros Hb1 Hb2.
  destruct (ceil_int (t_max E / dt E)%F) as [e|total] eqn:Hceil.
  - by rewrite !(main_block_Raise E _ _ _ _ e Hceil).
  - destruct (decide (Z.to_nat total ≤ fuel)) as [Hfuel|Hfuel].
    + destruct (main_block_Ok E fuel po1 pn1 w1 _ total Hb1 Hceil Hfuel)
        as (v1' & w1' & -> & (Hc1 & _) & Hs1 & Hf1).
      destruct (main_block_Ok E fuel po2 pn2 w2 _ total Hb2 Hceil Hfuel)
        as (v2' & w2' & -> & (Hc2 & _) & Hs2 & Hf2).
      simpl. unfold committed. by rewrite Hc1, Hc2, Hs1, Hs2, Hf1, Hf2.
    + rewrite (main_block_Timeout E fuel po1 pn1 w1 _ total Hb1 Hceil) by lia.
      by rewrite (main_block_Timeout E fuel po2 pn2 w2 _ total Hb2 Hceil) by lia.
Qed.

(** C9. What the run commits and writes does not depend on what the new
    buffer holds at the start: with any other rows [buf'] in it, the main
    block reaches the same step count, commits the same ensemble and leaves
    the same records in the file (or fails in the same way). *)
Theorem main_block_ignores_new_buffer (E : Env F) (fuel : nat) (po pn : loc)
    (w : world F) (rows buf' : Ensemble F) :
  buffers E (mkVars po pn fzero 0) w rows →
  length buf' = N E →
  observe (main_block E fuel po pn (set_buf pn buf' w))
  = observe (main_block E fuel po pn w).
Proof.
  intros Hbuf Hlen. apply main_block_observe with (rows := rows); [|done].
  destruct Hbuf as (Hold & Hrows & _ & Hne). simpl in *.
  unfold buffers; simpl. split_and!; [|done| |done].
  - by rewrite lookup_insert_ne.
  - exists buf'. split; [apply lookup_insert_eq|done].
Qed.

End RunTheorems.

(** ** The box *)

Section BoxTheorems.
Context {F : Type} `{Scalar F}.

(** C7. [reflect], as section 4.3 describes it, negates the velocity
    component normal to the wall ([vx] at the left and right wall, [vy] at
    the bottom and top wall) and returns the other velocity component and
    both position components as they are. *)
Theorem reflect_spec_law (s : State F) (wall : Wall) :
  px (reflect_spec s wall) = px s ∧
  py (reflect_spec s wall) = py s ∧
  match wall with
  | WLeft | WRight =>
      vx (reflect_spec s wall) = (- vx s)%F ∧ vy (reflect_spec s wall) = vy s
  | WBottom | WTop =>
      vx (reflect_spec s wall) = vx s ∧ vy (reflect_spec s wall) = (- vy s)%F
  end.
Proof.
  destruct wall; simpl; split_and!; reflexivity.
Qed.

Lemma closer_None (best : option (Wall * F)) (wall : Wall) (lam : F) :
  closer best wall lam = None → best = None ∧ in_range lam = false.
Proof.
  unfold closer. destruct (in_range lam).
  - destruct best as [[wall0 lam0]|]; [|discriminate].
    destruct (lam <? lam0)%F; discriminate.
  - intros ->. done.
Qed.

(** When no crossing is reported, no wall has a fraction in (0,1]. *)
Lemma first_crossing_None (b : box F) (s_old s_new : State F) (wall : Wall) :
  first_crossing b s_old s_new = None →
  in_range (crossing_fraction b wall s_old s_new) = false.
Proof.
  unfold first_crossing, wall_priority. simpl. intros Hnone.
  apply closer_None in Hnone as [Hnone Htop].
  apply closer_None in Hnone as [Hnone Hbottom].
  apply closer_None in Hnone as [Hnone Hright].
  apply closer_None in Hnone as [_ Hleft].
  by destruct wall.
Qed.

Lemma steps_length (E : Env F) (k : nat) : ∀ e : Ensemble F,
  length (steps E k e) = length e.
Proof.
  induction k as [|k IH]; intros e; simpl; [done|].
  by rewrite IH, step_ensemble_length.
Qed.

End BoxTheorems.

(** ** Exact arithmetic: where the particle stays in the box *)

Lemma in_range_Q (lam : Q) :
  in_range lam = true ↔ (0 < lam)%Q ∧ (lam <= 1)%Q.
Proof.
  unfold in_range. simpl. rewrite andb_true_iff, negb_true_iff.
  rewrite Qle_bool_iff. split.
  - intros [Hpos Hle]. split; [|done].
    apply Qnot_le_lt. intros Hle0. apply Qle_bool_iff in Hle0. congruence.
  - intros [Hpos Hle]. split; [|done].
    destruct (Qle_bool lam 0) eqn:Hb; [|done].
    apply Qle_bool_iff in Hb. lra.
Qed.

(** A wall at [c] between the old coordinate [a] (off the wall) and the
    new coordinate [b] is met at a fraction in (0,1]. *)
Lemma fraction_between (c a b : Q) :
  ((a < c)%Q ∧ (c <= b)%Q) ∨ ((b <= c)%Q ∧ (c < a)%Q) →
  (0 < (c - a) / (b - a))%Q ∧ ((c - a) / (b - a) <= 1)%Q.
Proof.
  intros [[Hac Hcb]|[Hbc Hca]].
  - split.
    + apply Qlt_shift_div_l; lra.
    + apply Qle_shift_div_r; lra.
  - assert ((c - a) / (b - a) == (a - c) / (a - b))%Q as -> by (field; lra).
    split.
    + apply Qlt_shift_div_l; lra.
    + apply Qle_shift_div_r; lra.
Qed.

Lemma frac_in (c a b : Q) :
  ((a < c)%Q ∧ (c <= b)%Q) ∨ ((b <= c)%Q ∧ (c < a)%Q) →
  in_range ((c - a) / (b - a))%Q = true.
Proof. intros Hc. apply in_range_Q. by apply fraction_between. Qed.

Lemma frac_out (c a b : Q) :
  ((a < c)%Q ∧ (b < c)%Q) ∨ ((c < a)%Q ∧ (c < b)%Q) →
  in_range ((c - a) / (b - a))%Q = false.
Proof.
  intros Hside.
  destruct (in_range ((c - a) / (b - a))%Q) eqn:Hin; [|done].
  exfalso. apply in_range_Q in Hin as [Hpos Hle].
  destruct (Qeq_dec (b - a) 0) as [Hz|Hnz].
  - assert ((c - a) / (b - a) == 0)%Q as Heq.
    { unfold Qdiv. rewrite Hz. change (/ 0)%Q with 0%Q. ring. }
    rewrite Heq in Hpos. lra.
  - pose proof (Qmult_div_r (c - a) (b - a) Hnz) as Hmul.
    set (l := ((c - a) / (b - a))%Q) in *.
    set (d := (b - a)%Q) in *.
    assert (d == b - a)%Q as Hd by reflexivity.
    clearbody l d.
    destruct (Qlt_le_dec 0 d) as [Hd0|Hd0];
      destruct Hside as [[Hac Hbc]|[Hca Hcb]]; nra.
Qed.

Lemma frac_lt_one (c a b : Q) :
  ((a < c)%Q ∧ (c < b)%Q) ∨ ((b < c)%Q ∧ (c < a)%Q) →
  ((c - a) / (b - a) < 1)%Q.
Proof.
  intros [[Hac Hcb]|[Hbc Hca]].
  - apply Qlt_shift_div_r; lra.
  - assert ((c - a) / (b - a) == (a - c) / (a - b))%Q as -> by (field; lra).
    apply Qlt_shift_div_r; lra.
Qed.

Lemma frac_eq_one (c a b : Q) :
  ¬ (a == c)%Q → (b == c)%Q → ((c - a) / (b - a) == 1)%Q.
Proof. intros Hne Hb. rewrite Hb. field. lra. Qed.

Lemma fltb_Q (a b : Q) : fltb a b = true ↔ (a < b)%Q.
Proof.
  change (fltb a b) with (negb (Qle_bool b a)). rewrite negb_true_iff. split.
  - intros Hb. apply Qnot_le_lt. intros Hle. apply Qle_bool_iff in Hle. congruence.
  - intros Hlt. destruct (Qle_bool b a) eqn:Hb; [|done].
    apply Qle_bool_iff in Hb. lra.
Qed.

Lemma fltb_Q_false (a b : Q) : fltb a b = false ↔ (b <= a)%Q.
Proof.
  change (fltb a b) with (negb (Qle_bool b a)). rewrite negb_false_iff.
  apply Qle_bool_iff.
Qed.

(** The fold over the four walls keeps a wall whose fraction is in the
    range and is the least of those in the range. *)
Lemma closer_least (lL lR lB lT : Q) (wall : Wall) (lam : Q) :
  closer (closer (closer (closer None WLeft lL) WRight lR) WBottom lB) WTop lT
  = Some (wall, lam) →
  lam = fraction_of lL lR lB lT wall ∧ in_range lam = true ∧
  ∀ wall', in_range (fraction_of lL lR lB lT wall') = true →
           (lam <= fraction_of lL lR lB lT wall')%Q.
Proof.
  unfold closer.
  destruct (in_range lL) eqn:HL; destruct (in_range lR) eqn:HR;
    destruct (in_range lB) eqn:HB; destruct (in_range lT) eqn:HT;
    repeat match goal with
    | |- context [fltb ?a ?b] =>
        let Hc := fresh "Hc" in
        destruct (fltb a b) eqn:Hc;
        [apply fltb_Q in Hc | apply fltb_Q_false in Hc]
    end;
    intros [= <- <-]; (split; [reflexivity|]); (split; [assumption|]);
    intros [] Hin; cbn [fraction_of] in *; first [lra | congruence].
Qed.

(** The wall the test reports has its fraction in the range, and the least
    fraction of the walls in the range. *)
Lemma first_crossing_least (b : box Q) (s c : State Q) (wall : Wall) (lam : Q) :
  first_crossing b s c = Some (wall, lam) →
  lam = crossing_fraction b wall s c ∧ in_range lam = true ∧
  ∀ wall', in_range (crossing_fraction b wall' s c) = true →
           (lam <= crossing_fraction b wall' s c)%Q.
Proof.
  unfold first_crossing, wall_priority. cbn [foldl]. intros Hf.
  apply closer_least in Hf as (-> & Hin & Hmin). split_and!.
  - by destruct wall.
  - exact Hin.
  - intros wall' Hin'. specialize (Hmin wall'). destruct wall'; by apply Hmin.
Qed.

Lemma crossing_fraction_along (size : Q) (wall : Wall) (s c : State Q) :
  crossing_fraction (square size) wall s c
  = ((wall_coord size wall - along wall s) / (along wall c - along wall s))%Q.
Proof. by destruct wall. Qed.

(** From a position off the walls, a wall is in the range exactly when the
    end point is past it. *)
Lemma in_range_past (size : Q) (s c : State Q) (wall : Wall) :
  strictly_inside size s →
  in_range (crossing_fraction (square size) wall s c) = true ↔ past size wall c.
Proof.
  intros (Hx0 & Hx1 & Hy0 & Hy1). rewrite crossing_fraction_along. split.
  - intros Hin.
    destruct wall; cbn [past wall_coord along] in *.
    + destruct (Qlt_le_dec 0 (px c)) as [Hlt|]; [|done].
      rewrite frac_out in Hin by lra. discriminate.
    + destruct (Qlt_le_dec (px c) size) as [Hlt|]; [|done].
      rewrite frac_out in Hin by lra. discriminate.
    + destruct (Qlt_le_dec 0 (py c)) as [Hlt|]; [|done].
      rewrite frac_out in Hin by lra. discriminate.
    + destruct (Qlt_le_dec (py c) size) as [Hlt|]; [|done].
      rewrite frac_out in Hin by lra. discriminate.
  - intros Hp. apply frac_in.
    destruct wall; cbn [past wall_coord along] in *; lra.
Qed.

Lemma strictly_past_lt_one (size : Q) (s c : State Q) (wall : Wall) :
  strictly_inside size s → strictly_past size wall c →
  in_range (crossing_fraction (square size) wall s c) = true ∧
  (crossing_fraction (square size) wall s c < 1)%Q.
Proof.
  intros Hin Hp. split.
  - apply in_range_past; [done|].
    destruct wall; cbn [past strictly_past] in *; lra.
  - destruct Hin as (Hx0 & Hx1 & Hy0 & Hy1).
    rewrite crossing_fraction_along. apply frac_lt_one.
    destruct wall; cbn [strictly_past wall_coord along] in *; lra.
Qed.

(** The fraction of a wall the end point is exactly on. *)
Lemma on_wall_one (size : Q) (s c : State Q) (wall : Wall) :
  strictly_inside size s →
  (along wall c == wall_coord size wall)%Q →
  (crossing_fraction (square size) wall s c == 1)%Q.
Proof.
  intros (Hx0 & Hx1 & Hy0 & Hy1) Hon. rewrite crossing_fraction_along.
  apply frac_eq_one; [|done].
  destruct wall; cbn [along wall_coord]; lra.
Qed.

(** When the least fraction is 1, the end point is past no wall, only on
    walls. *)
Lemma least_one (size : Q) (s c : State Q) (wall : Wall) :
  strictly_inside size s →
  (∀ wall', in_range (crossing_fraction (square size) wall' s c) = true →
            (crossing_fraction (square size) wall s c
             <= crossing_fraction (square size) wall' s c)%Q) →
  (crossing_fraction (square size) wall s c == 1)%Q →
  (0 <= px c)%Q ∧ (px c <= size)%Q ∧ (0 <= py c)%Q ∧ (py c <= size)%Q.
Proof.
  intros Hin Hmin Hone.
  assert (∀ wall', ¬ strictly_past size wall' c) as Hno.
  { intros wall' Hp.
    destruct (strictly_past_lt_one size s c wall' Hin Hp) as [Hr Hlt].
    specialize (Hmin wall' Hr). lra. }
  split_and!.
  - apply Qnot_lt_le. exact (Hno WLeft).
  - apply Qnot_lt_le. exact (Hno WRight).
  - apply Qnot_lt_le. exact (Hno WBottom).
  - apply Qnot_lt_le. exact (Hno WTop).
Qed.

Lemma inside_Q (size : Q) (s : State Q) :
  inside size s = true ↔
  (0 <= px s)%Q ∧ (px s <= size)%Q ∧ (0 <= py s)%Q ∧ (py s <= size)%Q.
Proof.
  unfold inside. change fleb with Qle_bool. change fzero with 0%Q.
  rewrite !andb_true_iff, !Qle_bool_iff. tauto.
Qed.

Lemma mirror_low (size c : Q) : (c <= 0)%Q → (mirror size c == - c)%Q.
Proof.
  intros Hc. unfold mirror.
  destruct (Qle_bool c 0) eqn:Hb; [reflexivity|].
  apply Qle_bool_iff in Hc. congruence.
Qed.

Lemma mirror_high (size c : Q) :
  (0 < size)%Q → (size <= c)%Q → (mirror size c == 2 * size - c)%Q.
Proof.
  intros Hs Hc. unfold mirror.
  destruct (Qle_bool c 0) eqn:Hb; [apply Qle_bool_iff in Hb; lra|].
  destruct (Qle_bool size c) eqn:Hb'; [reflexivity|].
  apply Qle_bool_iff in Hc. congruence.
Qed.

Lemma mirror_fix (size c : Q) :
  (0 <= c)%Q → (c <= size)%Q → (mirror size c == c)%Q.
Proof.
  intros H0 H1. unfold mirror.
  destruct (Qle_bool c 0) eqn:Hb; [apply Qle_bool_iff in Hb; lra|].
  destruct (Qle_bool size c) eqn:Hb'; [apply Qle_bool_iff in Hb'; lra|].
  reflexivity.
Qed.

(** The position entries of a sum of rows of rationals. *)
Lemma px_vadd (a b : State Q) : px (vadd a b) = (px a + px b)%Q.
Proof. reflexivity. Qed.

Lemma py_vadd (a b : State Q) : py (vadd a b) = (py a + py b)%Q.
Proof. reflexivity. Qed.

Lemma crossing_fraction_x (size : Q) (wall : Wall) (s c : State Q) :
  wall = WLeft ∨ wall = WRight →
  crossing_fraction (square size) wall s c
  = ((wall_coord size wall - px s) / (px c - px s))%Q.
Proof. by intros [-> | ->]. Qed.

Lemma crossing_fraction_y (size : Q) (wall : Wall) (s c : State Q) :
  wall = WBottom ∨ wall = WTop →
  crossing_fraction (square size) wall s c
  = ((wall_coord size wall - py s) / (py c - py s))%Q.
Proof. by intros [-> | ->]. Qed.

(** The stepper without force: the position advances by [h] times the
    velocity, the velocity does not change. *)
Lemma rk4_free (s : State Q) (ctx : Ensemble Q) (i : nat) (h : Q) :
  let k := rk4_step_spec free_motion s ctx i h in
  (px k == h * vx s)%Q ∧ (py k == h * vy s)%Q ∧ (vx k == 0)%Q ∧ (vy k == 0)%Q.
Proof.
  cbv [rk4_step_spec free_motion vadd vscale px py vx vy fadd fsub fmul fdiv
       fzero of_int Q_scalar inject_Z].
  split_and!; field.
Qed.

Lemma reflect_spec_Q (s : State Q) (wall : Wall) :
  reflect_spec s wall
  = match wall with
    | WLeft | WRight => mkState (px s) (py s) (- vx s)%Q (vy s)
    | WBottom | WTop => mkState (px s) (py s) (vx s) (- vy s)%Q
    end.
Proof. by destruct wall. Qed.

(** The bounce without force at the left or the right wall: the committed
    position is the mirror image, at the wall, of the end point of the
    straight full step. *)
Lemma bounce_x (size dt : Q) (s : State Q) (rows : Ensemble Q) (i : nat)
    (wall : Wall) :
  wall = WLeft ∨ wall = WRight →
  ¬ (dt * vx s == 0)%Q →
  let rk4 := rk4_step_spec free_motion in
  let c := vadd s (rk4 s rows i dt) in
  let lam := crossing_fraction (square size) wall s c in
  let r := reflect_spec (vadd s (rk4 s rows i (lam * dt)%Q)) wall in
  let s_new := vadd r (rk4 r rows i ((1 - lam) * dt)%Q) in
  (px s_new == 2 * wall_coord size wall - (px s + dt * vx s))%Q ∧
  (py s_new == py s + dt * vy s)%Q.
Proof.
  intros Hwall Hnz rk4 c lam r s_new.
  destruct (rk4_free s rows i dt) as (Hx1 & _ & _ & _).
  destruct (rk4_free s rows i (lam * dt)%Q) as (Hx2 & Hy2 & Hvx2 & Hvy2).
  destruct (rk4_free r rows i ((1 - lam) * dt)%Q) as (Hx3 & Hy3 & _ & _).
  fold rk4 in Hx1, Hx2, Hy2, Hvx2, Hvy2, Hx3, Hy3.
  assert (lam == (wall_coord size wall - px s) / (dt * vx s))%Q as Hlam.
  { unfold lam. rewrite crossing_fraction_x by done. unfold c.
    rewrite px_vadd, Hx1. apply Qdiv_comp; [reflexivity|ring]. }
  assert (r = mkState (px s + px (rk4 s rows i (lam * dt)%Q))%Q
                      (py s + py (rk4 s rows i (lam * dt)%Q))%Q
                      (- (vx s + vx (rk4 s rows i (lam * dt)%Q)))%Q
                      (vy s + vy (rk4 s rows i (lam * dt)%Q))%Q) as Hr.
  { unfold r. rewrite reflect_spec_Q. by destruct Hwall as [-> | ->]. }
  assert (px r == px s + lam * dt * vx s)%Q as Hpr by (rewrite Hr; cbn [px]; by rewrite Hx2).
  assert (py r == py s + lam * dt * vy s)%Q as Hpyr by (rewrite Hr; cbn [py]; by rewrite Hy2).
  assert (vx r == - vx s)%Q as Hvr by (rewrite Hr; cbn [vx]; rewrite Hvx2; ring).
  assert (vy r == vy s)%Q as Hvyr by (rewrite Hr; cbn [vy]; rewrite Hvy2; ring).
  unfold s_new. rewrite px_vadd, py_vadd, Hx3, Hy3, Hpr, Hpyr, Hvr, Hvyr. split.
  - rewrite Hlam. field. split; intros Hz; apply Hnz; rewrite Hz; ring.
  - ring.
Qed.

(** The same at the bottom or the top wall. *)
Lemma bounce_y (size dt : Q) (s : State Q) (rows : Ensemble Q) (i : nat)
    (wall : Wall) :
  wall = WBottom ∨ wall = WTop →
  ¬ (dt * vy s == 0)%Q →
  let rk4 := rk4_step_spec free_motion in
  let c := vadd s (rk4 s rows i dt) in
  let lam := crossing_fraction (square size) wall s c in
  let r := reflect_spec (vadd s (rk4 s rows i (lam * dt)%Q)) wall in
  let s_new := vadd r (rk4 r rows i ((1 - lam) * dt)%Q) in
  (px s_new == px s + dt * vx s)%Q ∧
  (py s_new == 2 * wall_coord size wall - (py s + dt * vy s))%Q.
Proof.
  intros Hwall Hnz rk4 c lam r s_new.
  destruct (rk4_free s rows i dt) as (_ & Hy1 & _ & _).
  destruct (rk4_free s rows i (lam * dt)%Q) as (Hx2 & Hy2 & Hvx2 & Hvy2).
  destruct (rk4_free r rows i ((1 - lam) * dt)%Q) as (Hx3 & Hy3 & _ & _).
  fold rk4 in Hy1, Hx2, Hy2, Hvx2, Hvy2, Hx3, Hy3.
  assert (lam == (wall_coord size wall - py s) / (dt * vy s))%Q as Hlam.
  { unfold lam. rewrite crossing_fraction_y by done. unfold c.
    rewrite py_vadd, Hy1. apply Qdiv_comp; [reflexivity|ring]. }
  assert (r = mkState (px s + px (rk4 s rows i (lam * dt)%Q))%Q
                      (py s + py (rk4 s rows i (lam * dt)%Q))%Q
                      (vx s + vx (rk4 s rows i (lam * dt)%Q))%Q
                      (- (vy s + vy (rk4 s rows i (lam * dt)%Q)))%Q) as Hr.
  { unfold r. rewrite reflect_spec_Q. by destruct Hwall as [-> | ->]. }
  assert (px r == px s + lam * dt * vx s)%Q as Hpr by (rewrite Hr; cbn [px]; by rewrite Hx2).
  assert (py r == py s + lam * dt * vy s)%Q as Hpyr by (rewrite Hr; cbn [py]; by rewrite Hy2).
  assert (vx r == vx s)%Q as Hvr by (rewrite Hr; cbn [vx]; rewrite Hvx2; ring).
  assert (vy r == - vy s)%Q as Hvyr by (rewrite Hr; cbn [vy]; rewrite Hvy2; ring).
  unfold s_new. rewrite px_vadd, py_vadd, Hx3, Hy3, Hpr, Hpyr, Hvr, Hvyr. split.
  - ring.
  - rewrite Hlam. field. split; intros Hz; apply Hnz; rewrite Hz; ring.
Qed.

(** The update of one particle with the stepper and the box of sections
    4.1-4.3, on exact numbers. *)
Lemma updateOne_spec_env (n : nat) (size step tmax vmax : Q)
    (f : State Q → Ensemble Q → nat → State Q) (in_place : bool)
    (i : nat) (rows : Ensemble Q) (s : State Q) :
  updateOne (spec_env n size step tmax vmax f in_place) i rows s
  = let rk4 := rk4_step_spec f in
    let c := vadd s (rk4 s rows i step) in
    match first_crossing (square size) s c with
    | None => c
    | Some (wall, lam) =>
        let r := reflect_spec (vadd s (rk4 s rows i (lam * step)%Q)) wall in
        vadd r (rk4 r rows i ((1 - lam) * step)%Q)
    end.
Proof.
  unfold updateOne, spec_env, left_box_spec, simbox, square.
  cbn [rk4_step eqnmotion left_box reflect dt box_size].
  change (@fzero Q Q_scalar) with 0%Q.
  by destruct (first_crossing _ s _) as [[wall lam]|].
Qed.

(** Whatever the force: from a position off the walls, a full step that
    ends off the walls is committed as it is. *)
Lemma updateOne_candidate (n : nat) (size step tmax vmax : Q)
    (f : State Q → Ensemble Q → nat → State Q) (in_place : bool)
    (i : nat) (rows : Ensemble Q) (s : State Q) :
  let c := vadd s (rk4_step_spec f s rows i step) in
  strictly_inside size s →
  strictly_inside size c →
  updateOne (spec_env n size step tmax vmax f in_place) i rows s = c.
Proof.
  intros c Hin (Hx0 & Hx1 & Hy0 & Hy1).
  rewrite updateOne_spec_env. cbv zeta. fold c.
  destruct (first_crossing (square size) s c) as [[wall lam]|] eqn:Hfc; [|done].
  apply first_crossing_least in Hfc as (-> & Hr & _).
  apply in_range_past in Hr; [|done].
  destruct wall; cbn [past] in Hr; lra.
Qed.

(** One step of a particle that starts off the walls, without force and on
    exact numbers: the committed position is in the box exactly when the
    straight full step ends within one box width beyond at most one wall,
    and it is then the mirror image of that end point. *)
Lemma updateOne_free (n : nat) (size step tmax vmax : Q) (in_place : bool)
    (i : nat) (rows : Ensemble Q) (s : State Q) :
  strictly_inside size s →
  let cx := (px s + step * vx s)%Q in
  let cy := (py s + step * vy s)%Q in
  let s_new :=
    updateOne (spec_env n size step tmax vmax free_motion in_place) i rows s in
  (inside size s_new = true ↔ reach size cx cy) ∧
  (reach size cx cy →
   (px s_new == mirror size cx)%Q ∧ (py s_new == mirror size cy)%Q).
Proof.
  intros Hin cx cy s_new.
  pose proof Hin as (Hx0 & Hx1 & Hy0 & Hy1).
  unfold s_new. clear s_new. rewrite updateOne_spec_env. cbv zeta.
  set (c := vadd s (rk4_step_spec free_motion s rows i step)).
  destruct (rk4_free s rows i step) as (Hkx & Hky & _ & _).
  assert (px c == cx)%Q as HX by (unfold c, cx; by rewrite px_vadd, Hkx).
  assert (py c == cy)%Q as HY by (unfold c, cy; by rewrite py_vadd, Hky).
  assert (cx == px s + step * vx s)%Q as Hcx by reflexivity.
  assert (cy == py s + step * vy s)%Q as Hcy by reflexivity.
  clearbody cx cy. clear Hkx Hky.
  destruct (first_crossing (square size) s c) as [[wall lam]|] eqn:Hfc.
  - apply first_crossing_least in Hfc as (-> & Hr & Hmin).
    apply in_range_past in Hr; [|done].
    assert ((along wall c == wall_coord size wall)%Q →
            (0 <= px c)%Q ∧ (px c <= size)%Q ∧ (0 <= py c)%Q ∧ (py c <= size)%Q)
      as Hedge.
    { intros Hon. apply (least_one size s c wall Hin Hmin).
      by apply on_wall_one. }
    set (s_new := vadd _ _).
    destruct wall; cbn [past along wall_coord] in Hr, Hedge.
    + assert (¬ (step * vx s == 0)%Q) as Hnz by (intros Hz; lra).
      assert ((px s_new == 2 * 0 - (px s + step * vx s))%Q ∧
              (py s_new == py s + step * vy s)%Q) as [Hbx Hby]
        by exact (bounce_x size step s rows i WLeft (or_introl eq_refl) Hnz).
      assert (reach size cx cy ↔
              (- size <= cx)%Q ∧ (0 <= cy)%Q ∧ (cy <= size)%Q) as Hre.
      { unfold reach. split; [|intros (? & ? & ?); left; lra].
        intros [(? & ? & ? & ?)|(? & ? & ? & ?)]; [lra|].
        destruct Hedge as (? & ? & ? & ?); lra. }
      rewrite Hre, inside_Q. split; [split; intros; split_and?; lra|].
      intros (? & ? & ?).
      pose proof (mirror_low size cx). pose proof (mirror_fix size cy). lra.
    + assert (¬ (step * vx s == 0)%Q) as Hnz by (intros Hz; lra).
      assert ((px s_new == 2 * size - (px s + step * vx s))%Q ∧
              (py s_new == py s + step * vy s)%Q) as [Hbx Hby]
        by exact (bounce_x size step s rows i WRight (or_intror eq_refl) Hnz).
      assert (reach size cx cy ↔
              (cx <= 2 * size)%Q ∧ (0 <= cy)%Q ∧ (cy <= size)%Q) as Hre.
      { unfold reach. split; [|intros (? & ? & ?); left; lra].
        intros [(? & ? & ? & ?)|(? & ? & ? & ?)]; [lra|].
        destruct Hedge as (? & ? & ? & ?); lra. }
      rewrite Hre, inside_Q. split; [split; intros; split_and?; lra|].
      intros (? & ? & ?).
      pose proof (mirror_high size cx). pose proof (mirror_fix size cy). lra.
    + assert (¬ (step * vy s == 0)%Q) as Hnz by (intros Hz; lra).
      assert ((px s_new == px s + step * vx s)%Q ∧
              (py s_new == 2 * 0 - (py s + step * vy s))%Q) as [Hbx Hby]
        by exact (bounce_y size step s rows i WBottom (or_introl eq_refl) Hnz).
      assert (reach size cx cy ↔
              (- size <= cy)%Q ∧ (0 <= cx)%Q ∧ (cx <= size)%Q) as Hre.
      { unfold reach. split; [|intros (? & ? & ?); right; lra].
        intros [(? & ? & ? & ?)|(? & ? & ? & ?)]; [|lra].
        destruct Hedge as (? & ? & ? & ?); lra. }
      rewrite Hre, inside_Q. split; [split; intros; split_and?; lra|].
      intros (? & ? & ?).
      pose proof (mirror_low size cy). pose proof (mirror_fix size cx). lra.
    + assert (¬ (step * vy s == 0)%Q) as Hnz by (intros Hz; lra).
      assert ((px s_new == px s + step * vx s)%Q ∧
              (py s_new == 2 * size - (py s + step * vy s))%Q) as [Hbx Hby]
        by exact (bounce_y size step s rows i WTop (or_intror eq_refl) Hnz).
      assert (reach size cx cy ↔
              (cy <= 2 * size)%Q ∧ (0 <= cx)%Q ∧ (cx <= size)%Q) as Hre.
      { unfold reach. split; [|intros (? & ? & ?); right; lra].
        intros [(? & ? & ? & ?)|(? & ? & ? & ?)]; [|lra].
        destruct Hedge as (? & ? & ? & ?); lra. }
      rewrite Hre, inside_Q. split; [split; intros; split_and?; lra|].
      intros (? & ? & ?).
      pose proof (mirror_high size cy). pose proof (mirror_fix size cx). lra.
  - assert (∀ wall, ¬ past size wall c) as Hno.
    { intros wall Hp. apply (in_range_past size s c wall Hin) in Hp.
      unfold first_crossing, wall_priority in Hfc. cbn [foldl] in Hfc.
      rewrite (first_crossing_None _ _ _ wall Hfc) in Hp. discriminate. }
    pose proof (Hno WLeft) as HnL. pose proof (Hno WRight) as HnR.
    pose proof (Hno WBottom) as HnB. pose proof (Hno WTop) as HnT.
    cbn [past] in HnL, HnR, HnB, HnT.
    apply Qnot_le_lt in HnL, HnR, HnB, HnT.
    rewrite inside_Q. split; [split|].
    + intros _. left. lra.
    + intros _. lra.
    + intros _.
      pose proof (mirror_fix size cx). pose proof (mirror_fix size cy). lra.
Qed.


(** ** The second wall *)


(** The same run on binary64 numbers; all numbers that occur are exact. *)
Lemma second_wall_escape_binary64 :
  inside 8%float corner_start64 = true ∧
  inside 8%float (mkState 5%float 9%float (-1)%float 1%float) = false ∧
  ∃ v' w',
    sim corner_env64 (λ _, corner_start64) 1 (mkWorld ∅ []) = Ok (v', w') ∧
    file w' = [(0%float, [corner_start64]);
               (6%float, [mkState 5%float 9%float (-1)%float 1%float])].
Proof.
  split; [reflexivity|]. split; [reflexivity|].
  remember (sim corner_env64 (λ _, corner_start64) 1 (mkWorld ∅ [])) as r eqn:Hr.
  vm_compute in Hr. subst r.
  eexists _, _. split; reflexivity.
Qed.

(** Why the old position has to be off the walls: the crossing test of
    section 4.3 counts positive fractions only.  A particle on the left
    wall that moves outwards meets that wall at fraction 0, no crossing is
    reported, and the full step is committed. *)
Lemma on_wall_escape :
  inside 8%Q wall_start = true ∧
  ∃ v' w' t1 s1,
    sim corner_env (λ _, wall_start) 1 (mkWorld ∅ []) = Ok (v', w') ∧
    file w' = [(0%Q, [wall_start]); (t1, [s1])] ∧
    (px s1 == -6)%Q ∧ (py s1 == 1)%Q ∧
    inside 8%Q s1 = false.
Proof.
  split; [reflexivity|].
  remember (sim corner_env (λ _, wall_start) 1 (mkWorld ∅ [])) as r eqn:Hr.
  vm_compute in Hr. subst r.
  eexists _, _, _, _. split; [reflexivity|].
  split; [reflexivity|].
  split_and!; reflexivity.
Qed.

(** Why the numbers have to be exact, first part: on binary64 numbers the
    fraction of a crossing can round to zero.  The particle starts inside
    the box, off the walls; the fraction at which it meets the left wall is
    2^-1074 / (6 * 2^1000), which is 0 in binary64; no crossing is reported
    and the particle is committed far outside the box. *)
Lemma underflow_escape :
  fltb fzero (px tiny_start) = true ∧
  inside 8%float tiny_start = true ∧
  inside 8%float (mkState (-0x1.8p+1002)%float 1%float (-0x1p+1000)%float 0%float)
  = false ∧
  ∃ v' w',
    sim corner_env64 (λ _, tiny_start) 1 (mkWorld ∅ []) = Ok (v', w') ∧
    file w' = [(0%float, [tiny_start]);
               (6%float, [mkState (-0x1.8p+1002)%float 1%float
                                  (-0x1p+1000)%float 0%float])].
Proof.
  split; [reflexivity|]. split; [reflexivity|]. split; [reflexivity|].
  remember (sim corner_env64 (λ _, tiny_start) 1 (mkWorld ∅ [])) as r eqn:Hr.
  vm_compute in Hr. subst r.
  eexists _, _. split; reflexivity.
Qed.

(** Why the numbers have to be exact, second part: on binary64 numbers the
    two parts of a bounce do not add up to the mirror image.  The straight
    full step ends at 16, two box widths from the left wall, so that on the
    exact values of the same binary64 numbers the bounce at the right wall
    ends on the left wall, at 0; the binary64 run commits -2^-49. *)
Lemma rounding_escape :
  let s := exact_state round_start in
  let E := spec_env 1 8%Q 1%Q 1%Q 1%Q free_motion true in
  strictly_inside 8%Q s ∧
  reach 8%Q (px s + 1 * vx s)%Q (py s + 1 * vy s)%Q ∧
  inside 8%Q (updateOne E 0 [s] s) = true ∧
  inside 8%float round_end = false ∧
  ∃ v' w',
    sim round_env (λ _, round_start) 1 (mkWorld ∅ []) = Ok (v', w') ∧
    file w' = [(0%float, [round_start]); (1%float, [round_end])].
Proof.
  intros s E.
  split; [split_and!; reflexivity|].
  split; [left; split_and!; vm_compute; discriminate|].
  split; [vm_compute; reflexivity|]. split; [reflexivity|].
  remember (sim round_env (λ _, round_start) 1 (mkWorld ∅ [])) as r eqn:Hr.
  vm_compute in Hr. subst r.
  eexists _, _. split; reflexivity.
Qed.

(** Why there is no force: the crossing fraction is that of the straight
    segment, and with a force the stepper does not follow that segment.
    The full step of the first particle ends at (65/8, 1), beyond the right
    wall only and by an eighth; the step redone around the reflection ends
    outside the box all the same, about 0.23 beyond the right wall. *)
Lemma force_bounce_escape :
  let s := spring_sample 0 in
  let rows := [spring_sample 0; spring_sample 1] in
  let c := vadd s (rk4_step_spec (spring_motion 1%Q) s rows 0 1%Q) in
  strictly_inside 8%Q s ∧
  (px c == 65 # 8)%Q ∧ (py c == 1)%Q ∧ reach 8%Q (px c) (py c) ∧
  ∃ v' w' t1 s0 s1,
    sim spring_env spring_sample 1 (mkWorld ∅ []) = Ok (v', w') ∧
    file w' = [(0%Q, rows); (t1, [s0; s1])] ∧
    (px s0 == 8501830019 # 1033121304)%Q ∧ (py s0 == 1)%Q ∧
    inside 8%Q s0 = false.
Proof.
  intros s rows c.
  split; [split_and!; reflexivity|].
  split; [vm_compute; reflexivity|]. split; [vm_compute; reflexivity|].
  split; [left; split_and!; vm_compute; discriminate|].
  remember (sim spring_env spring_sample 1 (mkWorld ∅ [])) as r eqn:Hr.
  vm_compute in Hr. subst r.
  eexists _, _, _, _, _. split; [reflexivity|].
  split; [reflexivity|].
  split_and!; reflexivity.
Qed.

(** ** The theorems at work on the examples *)

Lemma compute_particle_frame_witness :
  match compute_particle demo_env 0 0%nat demo_world with
  | Ok ((i, _), w') =>
      i = 0 ∧ 0 < length demo_rows ∧
      mem w' !! 0%nat = Some (Arr2 demo_rows) ∧
      (∀ l x, mem demo_world !! l = Some x → mem w' !! l = Some x) ∧
      file w' = file demo_world
  | Raise _ => length demo_rows ≤ 0
  | Timeout => False
  end.
Proof.
  apply (compute_particle_frame demo_env demo_world 0 0%nat demo_rows).
  reflexivity.
Defined.

Lemma compute_particle_bounce_witness :
  (demo_lam == 1 # 2)%Q ∧
  ∃ r w' s_new,
    compute_particle demo_env 0 0%nat demo_world = Ok ((0, r), w') ∧
    holds w' r s_new ∧
    (px s_new == 5)%Q ∧ (py s_new == 1)%Q ∧ (vx s_new == -1)%Q ∧ (vy s_new == 0)%Q.
Proof.
  split; [reflexivity|].
  destruct (compute_particle_bounce demo_env demo_world 0 0%nat demo_rows
              (mkState 5%Q 1%Q 1%Q 0%Q) WRight demo_lam)
    as [(r & w' & Hrun & Hr) _].
  - reflexivity.
  - reflexivity.
  - vm_compute. reflexivity.
  - exists r, w'. eexists. split; [exact Hrun|]. split; [exact Hr|].
    split_and!; vm_compute; reflexivity.
Defined.

Lemma compute_particle_no_crossing_witness :
  let s_new := vadd (mkState 1%Q 1%Q 0%Q 0%Q)
                 (rk4_step_spec free_motion (mkState 1%Q 1%Q 0%Q 0%Q)
                    demo_rows 1 6%Q) in
  (px s_new == 1)%Q ∧ (py s_new == 1)%Q ∧
  (∃ r w', compute_particle demo_env 1 0%nat demo_world = Ok ((1, r), w') ∧
           holds w' r s_new) ∧
  (∃ v' w' rows', loop_body demo_env demo_vars demo_world = Ok (v', w') ∧
                  mem w' !! particles_s_old v' = Some (Arr2 rows') ∧
                  rows' !! 1 = Some s_new).
Proof.
  intros s_new. split; [vm_compute; reflexivity|].
  split; [vm_compute; reflexivity|].
  apply (compute_particle_no_crossing demo_env demo_vars demo_world 1 demo_rows
           (mkState 1%Q 1%Q 0%Q 0%Q) demo_buffers).
  - reflexivity.
  - vm_compute. reflexivity.
Defined.

Lemma parallel_update_order_independent_witness :
  ∃ w1' w2' rows',
    parallel_update demo_env [1; 0] demo_vars demo_world = Ok ((), w1') ∧
    parallel_update demo_env [0; 1] demo_vars demo_world' = Ok ((), w2') ∧
    mem w1' !! 1%nat = Some (Arr2 rows') ∧
    mem w2' !! 1%nat = Some (Arr2 rows') ∧
    mem w1' !! 0%nat = Some (Arr2 demo_rows) ∧
    mem w2' !! 0%nat = Some (Arr2 demo_rows) ∧
    length rows' = 2 ∧
    (∀ i s_old, demo_rows !! i = Some s_old →
                rows' !! i = Some (updateOne demo_env i demo_rows s_old)).
Proof.
  apply (parallel_update_order_independent demo_env demo_vars demo_vars
           demo_world demo_world' demo_rows [1; 0] [0; 1]
           demo_buffers demo_buffers').
  - apply perm_swap.
  - reflexivity.
Defined.

Lemma loop_body_commits_all_witness :
  ∃ results w1 v' w' rows',
    starmap (λ '(i, p), compute_particle demo_env i p) [(0, 0%nat); (1, 0%nat)]
      demo_world = Ok (results, w1) ∧
    results.*1 = [0; 1] ∧
    loop_body demo_env demo_vars demo_world = Ok (v', w') ∧
    particles_s_old v' = 1%nat ∧
    particles_s_new v' = 0%nat ∧
    buffers demo_env v' w' rows' ∧
    length rows' = 2 ∧
    (∀ i, i < 2 → ∃ s_old, demo_rows !! i = Some s_old ∧
                           rows' !! i = Some (updateOne demo_env i demo_rows s_old)) ∧
    last (file w') = Some (t v', rows').
Proof.
  exact (proj1 (loop_body_commits_all demo_env demo_vars demo_world demo_rows
                  demo_buffers)).
Defined.

Lemma sim_trace_witness :
  ∃ v' w',
    sim demo_env demo_sample 2 (mkWorld ∅ []) = Ok (v', w') ∧
    current_step v' = 2%Z ∧
    file w' = (0%Q, initial_ensemble demo_env demo_sample)
              :: map (λ k, ((inject_Z (Z.of_nat k) * 6)%Q,
                            steps demo_env k (initial_ensemble demo_env demo_sample)))
                     [1; 2] ∧
    length (file w') = 3.
Proof.
  destruct (sim_trace demo_env demo_sample 2%Z 2 (mkWorld ∅ [])) as [Hok _].
  - vm_compute. reflexivity.
  - vm_compute. discriminate.
  - apply Hok. vm_compute. constructor.
Defined.

Lemma main_block_ignores_new_buffer_witness :
  observe (main_block demo_env 5 0%nat 1%nat
             (set_buf 1%nat [zero_row; zero_row] demo_world))
  = observe (main_block demo_env 5 0%nat 1%nat demo_world).
Proof.
  apply (main_block_ignores_new_buffer demo_env 5 0%nat 1%nat demo_world
           demo_rows [zero_row; zero_row]).
  - exact demo_buffers.
  - reflexivity.
Defined.


(** ** Further properties of the program *)

Section MoreFacts.
Context {F : Type} `{Scalar F} (E : Env F).
Implicit Types (w : world F) (l p q : loc) (rows buf : Ensemble F) (v : @vars F).

(** One pass of the loop, with everything it leaves as it was. *)
Lemma loop_body_effect v w rows :
  buffers E v w rows →
  let c := (current_step v + 1)%Z in
  let v' := mkVars (particles_s_new v) (particles_s_old v) (of_int c * dt E)%F c in
  ∃ w', loop_body E v w = Ok (v', w') ∧
        mem w' !! particles_s_new v = Some (Arr2 (step_ensemble E rows)) ∧
        (∀ l x, l ≠ particles_s_new v → mem w !! l = Some x →
                mem w' !! l = Some x) ∧
        file w' = file w ++ [((of_int c * dt E)%F, step_ensemble E rows)].
Proof.
  intros (Hold & Hlen & (buf & Hnew & Hlenb) & Hne) c v'.
  destruct (parallel_update_Ok E (seq 0 (N E)) v w rows buf Hold Hnew Hne)
    as (w1 & Hpar & Hnew1 & Hkeep & Hfile); [lia|by rewrite Hlen|].
  eexists. split_and!.
  - unfold loop_body. rewrite (bind_Ok _ _ _ _ _ Hpar).
    rewrite (bind_Ok _ _ _ _ _ (output_Ok _ _ _ _ Hnew1)). reflexivity.
  - exact Hnew1.
  - exact Hkeep.
  - simpl. by rewrite Hfile.
Qed.

Lemma buffers_after_pass v w w' rows :
  buffers E v w rows →
  mem w' !! particles_s_new v = Some (Arr2 (step_ensemble E rows)) →
  (∀ l x, l ≠ particles_s_new v → mem w !! l = Some x → mem w' !! l = Some x) →
  buffers E (mkVars (particles_s_new v) (particles_s_old v)
               (of_int (current_step v + 1) * dt E)%F (current_step v + 1)) w'
          (step_ensemble E rows).
Proof.
  intros (Hold & Hlen & _ & Hne) Hnew' Hkeep.
  unfold buffers; simpl. split_and!; [done|by rewrite step_ensemble_length| |done].
  exists rows. split; [|done]. by apply Hkeep.
Qed.

(** The loop with enough passes allowed, with the names, the time and the
    last record it ends with, and with what it leaves as it was. *)
Lemma time_loop_final (n : nat) : ∀ fuel total v w rows,
  buffers E v w rows →
  last (file w) = Some (t v, rows) →
  n = Z.to_nat (total - current_step v) →
  n ≤ fuel →
  ∃ v' w', time_loop E fuel total v w = Ok (v', w') ∧
           buffers E v' w' (steps E n rows) ∧
           last (file w') = Some (t v', steps E n rows) ∧
           particles_s_old v'
           = after_swaps n (particles_s_old v) (particles_s_new v) ∧
           particles_s_new v'
           = after_swaps n (particles_s_new v) (particles_s_old v) ∧
           (∀ l x, l ≠ particles_s_old v → l ≠ particles_s_new v →
                   mem w !! l = Some x → mem w' !! l = Some x).
Proof.
  induction n as [|n IH]; intros fuel total v w rows Hbuf Hlast Hn Hfuel.
  - exists v, w. split_and!; [|done..].
    destruct fuel; simpl; rewrite decide_False; (done || lia).
  - destruct fuel as [|fuel]; [lia|].
    destruct (loop_body_effect v w rows Hbuf) as (w1 & Hbody & Hnew1 & Hkeep1 & Hfile1).
    simpl in Hbody, Hfile1.
    pose proof (buffers_after_pass v w w1 rows Hbuf Hnew1 Hkeep1) as Hbuf1.
    set (v1 := mkVars _ _ _ _) in *.
    destruct (IH fuel total v1 w1 _ Hbuf1)
      as (v' & w' & Hloop & Hbuf' & Hlast' & Ho & Hn' & Hkeep');
      [by rewrite Hfile1, last_snoc|simpl; lia|lia|].
    exists v', w'. split_and!.
    + simpl. rewrite decide_True by lia.
      by rewrite (bind_Ok _ _ _ _ _ Hbody).
    + exact Hbuf'.
    + exact Hlast'.
    + rewrite Ho. unfold after_swaps. simpl particles_s_old. simpl particles_s_new.
      rewrite Nat.even_succ, <- Nat.negb_even. by destruct (Nat.even n).
    + rewrite Hn'. unfold after_swaps. simpl particles_s_old. simpl particles_s_new.
      rewrite Nat.even_succ, <- Nat.negb_even. by destruct (Nat.even n).
    + intros l x Hlo Hln Hx. apply Hkeep'; [done|done|]. by apply Hkeep1.
Qed.

(** The main block, with the names, the time and the last record it ends
    with. *)
Lemma main_block_final fuel po pn w rows total :
  buffers E (mkVars po pn fzero 0) w rows →
  ceil_int (t_max E / dt E)%F = inr total →
  Z.to_nat total ≤ fuel →
  ∃ v' w', main_block E fuel po pn w = Ok (v', w') ∧
           buffers E v' w' (steps E (Z.to_nat total) rows) ∧
           last (file w') = Some (t v', steps E (Z.to_nat total) rows) ∧
           particles_s_old v' = after_swaps (Z.to_nat total) po pn ∧
           particles_s_new v' = after_swaps (Z.to_nat total) pn po ∧
           (∀ l x, l ≠ po → l ≠ pn → mem w !! l = Some x → mem w' !! l = Some x).
Proof.
  intros Hbuf Hceil Hfuel.
  pose proof Hbuf as (Hold & Hlen & (buf & Hnew & Hlenb) & Hne). simpl in *.
  set (w0 := mkWorld (mem w) []).
  set (w1 := mkWorld (mem w) [(fzero, rows)]).
  assert (buffers E (mkVars po pn fzero 0) w1 rows) as Hbuf1.
  { unfold buffers; simpl. split_and!; [done..|by exists buf|done]. }
  destruct (time_loop_final (Z.to_nat total) fuel total _ w1 rows Hbuf1)
    as (v' & w' & Hloop & Hrest); [done|simpl; f_equal; lia|done|].
  exists v', w'. split; [|exact Hrest].
  unfold main_block, int_ceil. rewrite Hceil.
  erewrite bind_Ok; [|reflexivity].
  erewrite bind_Ok; [|reflexivity].
  by rewrite (bind_Ok _ _ _ _ _ (output_Ok _ _ w0 _ Hold)).
Qed.

End MoreFacts.

Section MoreTheorems.
Context {F : Type} `{Scalar F}.

(** X1. The module-level initialisation (lines 25-35) returns two distinct
    arrays that did not exist before: the old buffer with [N] rows, row [i]
    being the sample of particle [i] (no zero of [np.zeros] is left), and
    the new buffer with [N] rows of zeros.  No other array is changed and
    nothing is written to the file. *)
Theorem module_init_leaves_two_buffers (E : Env F) (sample : nat → State F)
    (w : world F) :
  ∃ po pn w' rows,
    module_init E sample w = Ok ((po, pn), w') ∧
    po ≠ pn ∧ mem w !! po = None ∧ mem w !! pn = None ∧
    mem w' !! po = Some (Arr2 rows) ∧
    length rows = N E ∧
    (∀ i, i < N E → rows !! i = Some (sample i)) ∧
    mem w' !! pn = Some (Arr2 (replicate (N E) zero_row)) ∧
    (∀ l x, mem w !! l = Some x → mem w' !! l = Some x) ∧
    file w' = file w.
Proof.
  set (rows := initial_ensemble E sample).
  set (w1 := push (Arr2 (replicate (N E) zero_row)) w).
  set (w2 := set_buf (top w) rows w1).
  assert (length rows = N E) as Hlen
    by (unfold rows, initial_ensemble; by rewrite length_fmap, length_seq).
  assert (mem w2 !! top w = Some (Arr2 rows)) as Hpo by apply lookup_insert_eq.
  assert (∀ l x, mem w !! l = Some x → mem w2 !! l = Some x) as Hkeep2.
  { intros l x Hl. unfold w2, set_buf. simpl.
    rewrite !lookup_insert_ne; [done|intros <-..];
      rewrite top_fresh in Hl; discriminate. }
  exists (top w), (top w2), (push (Arr2 (replicate (N E) zero_row)) w2), rows.
  split_and!.
  - unfold module_init, np_zeros, np_zeros_like.
    rewrite (bind_Ok _ _ _ _ _ (alloc_push _ _)).
    rewrite (bind_Ok _ _ _ _ _ (init_rows _ _ _ _ (push_top _ _))).
    erewrite bind_Ok; [reflexivity|].
    rewrite (bind_Ok _ _ _ _ _ (read_rows_eq _ _ _ Hpo)).
    fold rows. rewrite Hlen. apply alloc_push.
  - intros Heq. pose proof (top_fresh w2) as Hfresh.
    rewrite <- Heq in Hfresh. congruence.
  - apply top_fresh.
  - destruct (mem w !! top w2) as [x|] eqn:Hx; [|done].
    apply Hkeep2 in Hx. rewrite top_fresh in Hx. discriminate.
  - apply (push_old _ w2). exact Hpo.
  - exact Hlen.
  - intros i Hi. unfold rows, initial_ensemble.
    rewrite list_lookup_fmap, lookup_seq_lt by lia. done.
  - apply (push_top _ w2).
  - intros l x Hl. apply (push_old _ w2). by apply Hkeep2.
  - done.
Qed.

(** When the step count is reached the loop returns at once, whatever the
    number of passes allowed. *)
Lemma time_loop_done (E : Env F) (fuel : nat) (total : Z) (v : vars)
    (w : world F) :
  (total ≤ current_step v)%Z → time_loop E fuel total v w = Ok (v, w).
Proof. intros Hc. destruct fuel; simpl; rewrite decide_False; (done || lia). Qed.

(** X2. When [int(np.ceil(t_max / dt))] is zero or negative, the loop body
    is never entered: the run ends normally without any pass, the step
    counter and the time keep their initial values [0] and [0.0], and the
    file holds the initial record and nothing else. *)
Theorem no_pass_without_steps (E : Env F) (sample : nat → State F)
    (total : Z) (fuel : nat) (w : world F) :
  ceil_int (t_max E / dt E)%F = inr total →
  (total ≤ 0)%Z →
  ∃ v' w',
    sim E sample fuel w = Ok (v', w') ∧
    current_step v' = 0%Z ∧
    t v' = fzero ∧
    committed v' w' = Some (initial_ensemble E sample) ∧
    file w' = [(fzero, initial_ensemble E sample)].
Proof.
  intros Hceil Hneg.
  destruct (module_init_Ok E sample w)
    as (po & pn & w0 & Hinit & (Hold & _) & _). simpl in Hold.
  eexists (mkVars po pn fzero 0), _. split_and!.
  - unfold sim. rewrite (bind_Ok _ _ _ _ _ Hinit).
    unfold main_block, int_ceil. rewrite Hceil.
    erewrite bind_Ok; [|reflexivity].
    erewrite bind_Ok; [|reflexivity].
    rewrite (bind_Ok _ _ _ _ _ (output_Ok _ _ (mkWorld (mem w0) []) _ Hold)).
    by apply time_loop_done.
  - done.
  - done.
  - unfold committed. simpl. by rewrite Hold.
  - done.
Qed.

(** X3. The records of a run do not depend on [t_max] except through their
    number: with the same constants, force law and initial ensemble, the
    file of a run with fewer steps is an initial segment of the file of a
    run with more steps. *)
Theorem longer_run_extends_file (E : Env F) (sample : nat → State F)
    (tmax1 tmax2 : F) (total1 total2 : Z) (fuel : nat) (w : world F) :
  ceil_int (tmax1 / dt E)%F = inr total1 →
  ceil_int (tmax2 / dt E)%F = inr total2 →
  (total1 ≤ total2)%Z →
  Z.to_nat total2 ≤ fuel →
  ∃ v1 w1 v2 w2,
    sim (with_t_max E tmax1) sample fuel w = Ok (v1, w1) ∧
    sim (with_t_max E tmax2) sample fuel w = Ok (v2, w2) ∧
    file w1 `prefix_of` file w2.
Proof.
  intros Hc1 Hc2 Hle Hfuel.
  destruct (module_init_Ok (with_t_max E tmax1) sample w)
    as (po & pn & w0 & Hinit1 & Hbuf1 & _).
  assert (module_init (with_t_max E tmax2) sample w = Ok ((po, pn), w0))
    as Hinit2 by exact Hinit1.
  assert (buffers (with_t_max E tmax2) (mkVars po pn fzero 0) w0
            (initial_ensemble (with_t_max E tmax1) sample)) as Hbuf2
    by exact Hbuf1.
  destruct (main_block_Ok (with_t_max E tmax1) fuel po pn w0 _ total1 Hbuf1 Hc1)
    as (v1 & w1 & Hrun1 & _ & _ & Hfile1); [lia|].
  destruct (main_block_Ok (with_t_max E tmax2) fuel po pn w0 _ total2 Hbuf2 Hc2)
    as (v2 & w2 & Hrun2 & _ & _ & Hfile2); [lia|].
  exists v1, w1, v2, w2. split_and!.
  - unfold sim. by rewrite (bind_Ok _ _ _ _ _ Hinit1).
  - unfold sim. by rewrite (bind_Ok _ _ _ _ _ Hinit2).
  - rewrite Hfile1, Hfile2. unfold trace, records.
    change (dt (with_t_max E tmax1)) with (dt E).
    change (dt (with_t_max E tmax2)) with (dt E).
    change (steps (with_t_max E tmax1)) with (steps E).
    change (steps (with_t_max E tmax2)) with (steps E).
    apply prefix_cons.
    replace (Z.to_nat total2)
      with (Z.to_nat total1 + (Z.to_nat total2 - Z.to_nat total1)) by lia.
    rewrite seq_app, map_app. by apply prefix_app_r.
Qed.

(** X4. At the end of a run the variables agree with the file: the
    ensemble that [particles_s_old] stands for is the ensemble of the last
    record, the variable [t] is the time of the last record, and that
    ensemble has [N] rows. *)
Theorem final_state_is_last_record (E : Env F) (sample : nat → State F)
    (total : Z) (fuel : nat) (w : world F) :
  ceil_int (t_max E / dt E)%F = inr total →
  Z.to_nat total ≤ fuel →
  ∃ v' w' rows,
    sim E sample fuel w = Ok (v', w') ∧
    committed v' w' = Some rows ∧
    last (file w') = Some (t v', rows) ∧
    length rows = N E.
Proof.
  intros Hceil Hfuel.
  destruct (module_init_Ok E sample w) as (po & pn & w0 & Hinit & Hbuf & _).
  destruct (main_block_final E fuel po pn w0 _ total Hbuf Hceil Hfuel)
    as (v' & w' & Hrun & (Hold' & Hlen' & _) & Hlast & _).
  exists v', w', (steps E (Z.to_nat total) (initial_ensemble E sample)).
  split_and!; [|by unfold committed; rewrite Hold'|done|done].
  unfold sim. by rewrite (bind_Ok _ _ _ _ _ Hinit).
Qed.

(** X5. One pass of the loop writes to the new buffer and to no other
    array that existed: the old ensemble is still there, in the buffer that
    is the new buffer of the next pass.  The pass adds exactly one record to
    the file, raises the step counter by one and sets [t] to the product of
    the new counter and [dt]. *)
Theorem loop_body_frame (E : Env F) (v : vars) (w : world F)
    (rows : Ensemble F) :
  buffers E v w rows →
  ∃ v' w' rec,
    loop_body E v w = Ok (v', w') ∧
    mem w' !! particles_s_new v' = Some (Arr2 rows) ∧
    (∀ l x, l ≠ particles_s_new v → mem w !! l = Some x →
            mem w' !! l = Some x) ∧
    file w' = file w ++ [rec] ∧
    rec.1 = t v' ∧
    current_step v' = (current_step v + 1)%Z ∧
    t v' = (of_int (current_step v') * dt E)%F.
Proof.
  intros Hbuf.
  destruct (loop_body_effect E v w rows Hbuf)
    as (w' & Hrun & _ & Hkeep & Hfile).
  destruct Hbuf as (Hold & _ & _ & Hne).
  eexists _, w', _. split_and!; [exact Hrun| |exact Hkeep|exact Hfile|done..].
  simpl. by apply Hkeep.
Qed.

(** X6. What [compute_particle] returns is never a view of its input and
    never an array that existed before the call: on a buffer that has the
    row, the result is an array of its own, allocated during the call. *)
Theorem compute_particle_returns_fresh_array (E : Env F) (w : world F)
    (idx : nat) (particles : loc) (rows : Ensemble F) :
  mem w !! particles = Some (Arr2 rows) →
  idx < length rows →
  ∃ l w' s, compute_particle E idx particles w = Ok ((idx, Whole l), w') ∧
            l ≠ particles ∧
            mem w !! l = None ∧
            mem w' !! l = Some (Arr1 s).
Proof.
  intros Hp Hi.
  destruct (lookup_lt_is_Some_2 rows idx Hi) as [s_old Hs].
  destruct (compute_particle_Ok E w particles idx rows s_old Hp Hs)
    as (w' & l & Hrun & _ & Hl & Hfresh).
  exists l, w', (updateOne E idx rows s_old).
  split_and!; [done| |done|done].
  intros ->. congruence.
Qed.

(** X7. The program works with either convention of [box.box.reflect]:
    whether it writes the reflected row over its argument or returns it as
    a new array, the run writes the same file and commits the same
    ensemble. *)
Theorem reflect_convention_irrelevant (E : Env F) (sample : nat → State F)
    (total : Z) (fuel : nat) (w : world F) :
  ceil_int (t_max E / dt E)%F = inr total →
  Z.to_nat total ≤ fuel →
  ∃ v1 w1 v2 w2,
    sim (with_in_place E true) sample fuel w = Ok (v1, w1) ∧
    sim (with_in_place E false) sample fuel w = Ok (v2, w2) ∧
    file w1 = file w2 ∧
    committed v1 w1 = committed v2 w2.
Proof.
  intros Hceil Hfuel.
  destruct (module_init_Ok (with_in_place E true) sample w)
    as (po & pn & w0 & Hinit1 & Hbuf1 & _).
  assert (module_init (with_in_place E false) sample w = Ok ((po, pn), w0))
    as Hinit2 by exact Hinit1.
  assert (buffers (with_in_place E false) (mkVars po pn fzero 0) w0
            (initial_ensemble (with_in_place E true) sample)) as Hbuf2
    by exact Hbuf1.
  destruct (main_block_Ok (with_in_place E true) fuel po pn w0 _ total
              Hbuf1 Hceil Hfuel)
    as (v1 & w1 & Hrun1 & (Hold1 & _) & _ & Hfile1).
  destruct (main_block_Ok (with_in_place E false) fuel po pn w0 _ total
              Hbuf2 Hceil Hfuel)
    as (v2 & w2 & Hrun2 & (Hold2 & _) & _ & Hfile2).
  exists v1, w1, v2, w2. split_and!.
  - unfold sim. by rewrite (bind_Ok _ _ _ _ _ Hinit1).
  - unfold sim. by rewrite (bind_Ok _ _ _ _ _ Hinit2).
  - rewrite Hfile1, Hfile2. reflexivity.
  - unfold committed. rewrite Hold1, Hold2. reflexivity.
Qed.

(** X8. The main block works on the two buffers it is given and on no
    third one: at the end each of the two names stands for one of the two
    buffers, for its own after an even number of steps and for the other
    after an odd number, and every array other than the two buffers that
    existed at the start has the entries it had. *)
Theorem main_block_buffer_parity (E : Env F) (fuel : nat) (po pn : loc)
    (w : world F) (rows : Ensemble F) (total : Z) :
  buffers E (mkVars po pn fzero 0) w rows →
  ceil_int (t_max E / dt E)%F = inr total →
  Z.to_nat total ≤ fuel →
  ∃ v' w',
    main_block E fuel po pn w = Ok (v', w') ∧
    particles_s_old v' = after_swaps (Z.to_nat total) po pn ∧
    particles_s_new v' = after_swaps (Z.to_nat total) pn po ∧
    (∀ l x, l ≠ po → l ≠ pn → mem w !! l = Some x → mem w' !! l = Some x).
Proof.
  intros Hbuf Hceil Hfuel.
  destruct (main_block_final E fuel po pn w rows total Hbuf Hceil Hfuel)
    as (v' & w' & Hrun & _ & _ & Ho & Hn & Hkeep).
  by exists v', w'.
Qed.

End MoreTheorems.

Section Records.
Context {F : Type} `{Scalar F} (E : Env F).

Lemma steps_succ (k : nat) : ∀ e : Ensemble F,
  steps E (S k) e = step_ensemble E (steps E k e).
Proof.
  induction k as [|k IH]; intros e; [done|].
  change (steps E (S (S k)) e) with (steps E (S k) (step_ensemble E e)).
  by rewrite IH.
Qed.

(** The ensemble of record [k] of a run is the initial ensemble after [k]
    steps. *)
Lemma trace_lookup (total : Z) (e : Ensemble F) (k : nat) (x : F)
    (r : Ensemble F) :
  trace E total e !! k = Some (x, r) → r = steps E k e.
Proof.
  unfold trace, records. destruct k as [|k]; simpl.
  - by intros [= _ <-].
  - rewrite list_lookup_fmap. intros Hk.
    destruct (seq 1 (Z.to_nat total) !! k) as [j|] eqn:Hj; [|done].
    apply lookup_seq in Hj as [-> _]. simpl in Hk. by injection Hk as _ <-.
Qed.

(** Record [k] of a run, for every step [k] up to the last. *)
Lemma trace_record (total : Z) (e : Ensemble F) (k : nat) :
  k ≤ Z.to_nat total →
  ∃ x, trace E total e !! k = Some (x, steps E k e).
Proof.
  intros Hk. unfold trace, records. destruct k as [|k]; [by eexists|].
  simpl. rewrite list_lookup_fmap, lookup_seq_lt by lia. by eexists.
Qed.

Lemma trace_length (total : Z) (e : Ensemble F) :
  length (trace E total e) = S (Z.to_nat total).
Proof. unfold trace, records. cbn [length]. by rewrite length_map, length_seq. Qed.

Lemma trace_last (total : Z) (e : Ensemble F) :
  ∃ x, last (trace E total e) = Some (x, steps E (Z.to_nat total) e).
Proof.
  destruct (trace_record total e (Z.to_nat total)) as [x Hx]; [done|].
  exists x. rewrite last_lookup, trace_length. exact Hx.
Qed.

(** The whole program with enough passes allowed. *)
Lemma sim_Ok (sample : nat → State F) (total : Z) (fuel : nat) (w : world F) :
  ceil_int (t_max E / dt E)%F = inr total →
  Z.to_nat total ≤ fuel →
  ∃ v' w', sim E sample fuel w = Ok (v', w') ∧
           buffers E v' w' (steps E (Z.to_nat total) (initial_ensemble E sample)) ∧
           current_step v' = Z.of_nat (Z.to_nat total) ∧
           file w' = trace E total (initial_ensemble E sample).
Proof.
  intros Hceil Hfuel.
  destruct (module_init_Ok E sample w) as (po & pn & w0 & Hinit & Hbuf & _).
  destruct (main_block_Ok E fuel po pn w0 _ total Hbuf Hceil Hfuel)
    as (v' & w' & Hrun & Hrest).
  exists v', w'. split; [|exact Hrest].
  unfold sim. by rewrite (bind_Ok _ _ _ _ _ Hinit).
Qed.

(** X9. In the file of a run every record is the one-step update of the
    record before it: row [i] of record [k+1] is what the task of particle
    [i] computes from the ensemble of record [k]. *)
Theorem consecutive_records (sample : nat → State F) (total : Z)
    (fuel : nat) (w : world F) :
  ceil_int (t_max E / dt E)%F = inr total →
  Z.to_nat total ≤ fuel →
  ∃ v' w',
    sim E sample fuel w = Ok (v', w') ∧
    ∀ k t1 e1 t2 e2,
      file w' !! k = Some (t1, e1) →
      file w' !! S k = Some (t2, e2) →
      length e2 = length e1 ∧
      ∀ i s_old, e1 !! i = Some s_old →
                 e2 !! i = Some (updateOne E i e1 s_old).
Proof.
  intros Hceil Hfuel.
  destruct (module_init_Ok E sample w) as (po & pn & w0 & Hinit & Hbuf & _).
  destruct (main_block_Ok E fuel po pn w0 _ total Hbuf Hceil Hfuel)
    as (v' & w' & Hrun & _ & _ & Hfile).
  exists v', w'. split.
  - unfold sim. by rewrite (bind_Ok _ _ _ _ _ Hinit).
  - intros k t1 e1 t2 e2 Hk HSk. rewrite Hfile in Hk, HSk.
    apply trace_lookup in Hk as ->. apply trace_lookup in HSk as ->.
    rewrite steps_succ. split; [apply step_ensemble_length|].
    intros i s_old Hi. rewrite step_ensemble_lookup. unfold new_row.
    by rewrite Hi.
Qed.

End Records.

(** ** Numbers that are not finite *)

(** C8 fails as stated.  All entries of the initial ensemble are finite; the
    increment of the first step overflows, the state committed by the first
    step has an infinite entry, and the run goes on: it makes both steps
    and writes all three records. *)
Lemma overflow_is_committed :
  finite_state fast_start = true ∧
  finite_state fast_end = false ∧
  ∃ v' w',
    sim fast_env (λ _, fast_start) 2 (mkWorld ∅ []) = Ok (v', w') ∧
    current_step v' = 2%Z ∧
    file w' = [(0%float, [fast_start]); (16%float, [fast_end]);
               (32%float, [fast_end])].
Proof.
  split; [reflexivity|]. split; [reflexivity|].
  remember (sim fast_env (λ _, fast_start) 2 (mkWorld ∅ [])) as r eqn:Hr.
  vm_compute in Hr. subst r.
  eexists _, _. split; [reflexivity|].
  split; reflexivity.
Qed.

(** The same with a derivative that is not finite.  Both particles start
    at rest at finite positions; the spring gives the first an infinite
    acceleration.  The first step commits states with NaN entries for both
    particles, and the run makes both steps. *)
Lemma infinite_derivative_is_committed :
  let rows := [stiff_sample 0; stiff_sample 1] in
  Forall (λ s, finite_state s = true) rows ∧
  finite_state (spring_motion 0x1p+1023%float (stiff_sample 0) rows 0) = false ∧
  ∃ v' w' e1 e2,
    sim stiff_env stiff_sample 2 (mkWorld ∅ []) = Ok (v', w') ∧
    current_step v' = 2%Z ∧
    file w' = [(0%float, rows); (1%float, e1); (2%float, e2)] ∧
    length e1 = 2 ∧ length e2 = 2 ∧
    Forall (λ s, finite_state s = false) e1 ∧
    Forall (λ s, finite_state s = false) e2.
Proof.
  intros rows. split; [by repeat constructor|]. split; [reflexivity|].
  remember (sim stiff_env stiff_sample 2 (mkWorld ∅ [])) as r eqn:Hr.
  vm_compute in Hr. subst r.
  eexists _, _, _, _. split; [reflexivity|].
  split; [reflexivity|]. split; [reflexivity|].
  split; [reflexivity|]. split; [reflexivity|].
  split; by repeat constructor.
Qed.

(** C8, as the program has it.  No value is tested for finiteness, and
    nothing reports a particle or a step.  For every environment on
    binary64 numbers whose functions return, and every initial ensemble,
    when the number of steps can be computed: the run ends normally after
    all its steps; the file starts with the initial record; every step
    takes every particle of the record before it through its task once and
    writes the results as the next record, all [N] of them; a result with
    an entry that is not finite is written like any other, and the next
    step starts from it; the ensemble committed last is the one of the
    last record. *)
Theorem non_finite_values_are_committed (E : Env float)
    (sample : nat → State float) (total : Z) (fuel : nat) (w : world float) :
  ceil_int (t_max E / dt E)%F = inr total →
  Z.to_nat total ≤ fuel →
  ∃ v' w',
    sim E sample fuel w = Ok (v', w') ∧
    current_step v' = Z.of_nat (Z.to_nat total) ∧
    length (file w') = S (Z.to_nat total) ∧
    file w' !! 0 = Some (0%float, initial_ensemble E sample) ∧
    (∀ k, k < Z.to_nat total →
       ∃ t1 e1 t2 e2,
         file w' !! k = Some (t1, e1) ∧ file w' !! S k = Some (t2, e2) ∧
         length e1 = N E ∧ length e2 = N E ∧
         ∀ i, i < N E →
           ∃ s_old, e1 !! i = Some s_old ∧
                    e2 !! i = Some (updateOne E i e1 s_old)) ∧
    (∀ k t1 e1 i s_old,
       k < Z.to_nat total →
       file w' !! k = Some (t1, e1) → e1 !! i = Some s_old →
       finite_state (updateOne E i e1 s_old) = false →
       ∃ t2 e2 s_new,
         file w' !! S k = Some (t2, e2) ∧ e2 !! i = Some s_new ∧
         s_new = updateOne E i e1 s_old ∧ finite_state s_new = false) ∧
    (∃ t_end e_end, last (file w') = Some (t_end, e_end) ∧
                    committed v' w' = Some e_end).
Proof.
  intros Hceil Hfuel.
  destruct (sim_Ok E sample total fuel w Hceil Hfuel)
    as (v' & w' & Hrun & Hbuf & Hc & Hfile).
  set (e0 := initial_ensemble E sample) in *.
  assert (length e0 = N E) as Hlen
    by (unfold e0, initial_ensemble; by rewrite length_fmap, length_seq).
  assert (∀ k t1 e1 i s_old,
            k < Z.to_nat total →
            file w' !! k = Some (t1, e1) → e1 !! i = Some s_old →
            ∃ t2, file w' !! S k = Some (t2, step_ensemble E e1) ∧
                  step_ensemble E e1 !! i = Some (updateOne E i e1 s_old))
    as Hnext.
  { intros k t1 e1 i s_old Hk Hrec Hi. rewrite Hfile in Hrec |- *.
    apply trace_lookup in Hrec as ->.
    destruct (trace_record E total e0 (S k)) as [t2 Ht2]; [lia|].
    exists t2. rewrite steps_succ in Ht2. split; [exact Ht2|].
    rewrite step_ensemble_lookup. unfold new_row. by rewrite Hi. }
  exists v', w'. split_and!.
  - exact Hrun.
  - exact Hc.
  - rewrite Hfile. apply trace_length.
  - by rewrite Hfile.
  - intros k Hk.
    destruct (trace_record E total e0 k) as [t1 Ht1]; [lia|].
    destruct (trace_record E total e0 (S k)) as [t2 Ht2]; [lia|].
    exists t1, (steps E k e0), t2, (steps E (S k) e0).
    rewrite Hfile. split_and!; [done|done| | |].
    + by rewrite steps_length.
    + by rewrite steps_length.
    + intros i Hi.
      destruct (lookup_lt_is_Some_2 (steps E k e0) i) as [s_old Hs];
        [rewrite steps_length; lia|].
      exists s_old. split; [done|].
      rewrite steps_succ, step_ensemble_lookup. unfold new_row. by rewrite Hs.
  - intros k t1 e1 i s_old Hk Hrec Hi Hnf.
    destruct (Hnext k t1 e1 i s_old Hk Hrec Hi) as (t2 & Hrec2 & Hrow).
    by exists t2, (step_ensemble E e1), (updateOne E i e1 s_old).
  - destruct (trace_last E total e0) as [t_end Hlast].
    exists t_end, (steps E (Z.to_nat total) e0). rewrite Hfile. split; [done|].
    unfold committed. destruct Hbuf as (Hold & _). by rewrite Hold.
Qed.

Lemma non_finite_values_are_committed_witness :
  ∃ v' w',
    sim fast_env (λ _, fast_start) 2 (mkWorld ∅ []) = Ok (v', w') ∧
    current_step v' = 2%Z ∧
    length (file w') = 3 ∧
    file w' !! 0 = Some (0%float, [fast_start]) ∧
    (∃ t2 e2 s_new,
       file w' !! 1 = Some (t2, e2) ∧ e2 !! 0 = Some s_new ∧
       s_new = fast_end ∧ finite_state s_new = false) ∧
    (∃ t_end e_end, last (file w') = Some (t_end, e_end) ∧
                    committed v' w' = Some e_end).
Proof.
  destruct (non_finite_values_are_committed fast_env (λ _, fast_start) 2%Z 2
              (mkWorld ∅ []))
    as (v' & w' & Hrun & Hc & Hlen & H0 & Hall & Hnf & Hend).
  - vm_compute. reflexivity.
  - vm_compute. constructor.
  - exists v', w'. split_and!; [done|done|done|done| |done].
    destruct (Hnf 0 0%float [fast_start] 0 fast_start) as (t2 & e2 & s_new & H1 & H2 & H3 & H4).
    + vm_compute. repeat constructor.
    + exact H0.
    + reflexivity.
    + vm_compute. reflexivity.
    + exists t2, e2, s_new. split_and!; [done|done| |done].
      rewrite H3. vm_compute. reflexivity.
Defined.

(** ** The further properties at work on the examples *)

Lemma no_pass_without_steps_witness :
  ∃ v' w',
    sim idle_env demo_sample 0 (mkWorld ∅ []) = Ok (v', w') ∧
    current_step v' = 0%Z ∧
    t v' = 0%Q ∧
    committed v' w' = Some (initial_ensemble idle_env demo_sample) ∧
    file w' = [(0%Q, initial_ensemble idle_env demo_sample)].
Proof.
  assert (ceil_int (t_max idle_env / dt idle_env)%F = inr 0%Z) as Hceil
    by (vm_compute; reflexivity).
  assert (0 ≤ 0)%Z as Hle by reflexivity.
  exact (no_pass_without_steps idle_env demo_sample 0%Z 0 (mkWorld ∅ [])
           Hceil Hle).
Defined.

Lemma longer_run_extends_file_witness :
  ∃ v1 w1 v2 w2,
    sim (with_t_max demo_env 6%Q) demo_sample 2 (mkWorld ∅ []) = Ok (v1, w1) ∧
    sim (with_t_max demo_env 12%Q) demo_sample 2 (mkWorld ∅ []) = Ok (v2, w2) ∧
    file w1 `prefix_of` file w2.
Proof.
  apply (longer_run_extends_file demo_env demo_sample 6%Q 12%Q 1%Z 2%Z 2
           (mkWorld ∅ [])).
  - vm_compute. reflexivity.
  - vm_compute. reflexivity.
  - vm_compute. discriminate.
  - vm_compute. constructor.
Defined.

Lemma final_state_is_last_record_witness :
  ∃ v' w' rows,
    sim demo_env demo_sample 2 (mkWorld ∅ []) = Ok (v', w') ∧
    committed v' w' = Some rows ∧
    last (file w') = Some (t v', rows) ∧
    length rows = 2.
Proof.
  apply (final_state_is_last_record demo_env demo_sample 2%Z 2 (mkWorld ∅ [])).
  - vm_compute. reflexivity.
  - vm_compute. constructor.
Defined.

Lemma loop_body_frame_witness :
  ∃ v' w' rec,
    loop_body demo_env demo_vars demo_world = Ok (v', w') ∧
    mem w' !! particles_s_new v' = Some (Arr2 demo_rows) ∧
    (∀ l x, l ≠ 1%nat → mem demo_world !! l = Some x → mem w' !! l = Some x) ∧
    file w' = [] ++ [rec] ∧
    rec.1 = t v' ∧
    current_step v' = 1%Z ∧
    t v' = (inject_Z (current_step v') * 6)%Q.
Proof.
  exact (loop_body_frame demo_env demo_vars demo_world demo_rows demo_buffers).
Defined.

Lemma compute_particle_returns_fresh_array_witness :
  ∃ l w' s, compute_particle demo_env 1 0%nat demo_world = Ok ((1, Whole l), w') ∧
            l ≠ 0%nat ∧
            mem demo_world !! l = None ∧
            mem w' !! l = Some (Arr1 s).
Proof.
  apply (compute_particle_returns_fresh_array demo_env demo_world 1 0%nat
           demo_rows).
  - reflexivity.
  - vm_compute. constructor.
Defined.

Lemma reflect_convention_irrelevant_witness :
  ∃ v1 w1 v2 w2,
    sim (with_in_place demo_env true) demo_sample 2 (mkWorld ∅ []) = Ok (v1, w1) ∧
    sim (with_in_place demo_env false) demo_sample 2 (mkWorld ∅ []) = Ok (v2, w2) ∧
    file w1 = file w2 ∧
    committed v1 w1 = committed v2 w2.
Proof.
  apply (reflect_convention_irrelevant demo_env demo_sample 2%Z 2 (mkWorld ∅ [])).
  - vm_compute. reflexivity.
  - vm_compute. constructor.
Defined.

Lemma main_block_buffer_parity_witness :
  ∃ v' w',
    main_block demo_env 2 0%nat 1%nat demo_world = Ok (v', w') ∧
    particles_s_old v' = 0%nat ∧
    particles_s_new v' = 1%nat ∧
    (∀ l x, l ≠ 0%nat → l ≠ 1%nat → mem demo_world !! l = Some x →
            mem w' !! l = Some x).
Proof.
  apply (main_block_buffer_parity demo_env 2 0%nat 1%nat demo_world demo_rows 2%Z).
  - exact demo_buffers.
  - vm_compute. reflexivity.
  - vm_compute. constructor.
Defined.

Lemma consecutive_records_witness :
  ∃ v' w',
    sim demo_env demo_sample 2 (mkWorld ∅ []) = Ok (v', w') ∧
    ∀ k t1 e1 t2 e2,
      file w' !! k = Some (t1, e1) →
      file w' !! S k = Some (t2, e2) →
      length e2 = length e1 ∧
      ∀ i s_old, e1 !! i = Some s_old →
                 e2 !! i = Some (updateOne demo_env i e1 s_old).
Proof.
  apply (consecutive_records demo_env demo_sample 2%Z 2 (mkWorld ∅ [])).
  - vm_compute. reflexivity.
  - vm_compute. constructor.
Defined.
